(** * The chestnut-bun (dorayaki) doubling problem

    A shallow embedding of [calcular_tiempo_para_volumen] from
    [src/chestnut_bun_problem.py], with Python's numbers modelled as they
    are at run time: [float] is IEEE binary64 (Rocq's primitive floats),
    [int] is unbounded ([Z]), and the operations that can raise do so in an
    error monad. *)

From Stdlib Require Import ZArith List Bool Lia QArith Qpower Qround Lqa.
From Stdlib Require String.
From Stdlib Require Import Floats.
Import ListNotations.
Import String.StringSyntax.
#[local] Delimit Scope string_scope with string.

#[local] Set Warnings "-inexact-float".
#[local] Open Scope Z_scope.

(** ** Exceptions and the error monad *)

Inductive exn : Set := OverflowError | ValueError | ZeroDivisionError.

Inductive result (A : Type) : Type :=
| Ok (a : A)
| Raise (e : exn).
Arguments Ok {A} a.
Arguments Raise {A} e.

Definition bind {A B : Type} (c : result A) (k : A -> result B) : result B :=
  match c with
  | Ok a => k a
  | Raise e => Raise e
  end.

Notation "x <- c ;; k" := (bind c (fun x => k))
  (at level 61, c at next level, right associativity).

(** ** Python numbers *)

(** A Python number is an [int] or a [float]. *)
Inductive pynum : Set :=
| PyInt (z : Z)
| PyFloat (f : float).

(** [float(z)] for an int [z]: the nearest double, ties to even;
    OverflowError when that is not finite. *)
Definition int_to_float (z : Z) : result float :=
  match binary_normalize prec emax z 0 false with
  | S754_infinity _ => Raise OverflowError
  | sf => Ok (SF2Prim sf)
  end.

(** [a / b] on ints (true division): the correctly rounded quotient. *)
Definition int_truediv (a b : Z) : result float :=
  match b with
  | Z0 => Raise ZeroDivisionError
  | _ =>
    match a with
    | Z0 => Ok (if b <? 0 then neg_zero else zero)
    | _ =>
      match SFdiv prec emax
              (S754_finite (a <? 0) (Z.to_pos (Z.abs a)) 0)
              (S754_finite (b <? 0) (Z.to_pos (Z.abs b)) 0) with
      | S754_infinity _ => Raise OverflowError
      | sf => Ok (SF2Prim sf)
      end
    end
  end.

(** [x / y] on floats: ZeroDivisionError on a zero divisor, IEEE otherwise. *)
Definition float_div (x y : float) : result float :=
  if (y =? 0)%float then Raise ZeroDivisionError else Ok (x / y)%float.

(** [n * p] for an int [n] and a number [p]. *)
Definition int_mul_num (n : Z) (p : pynum) : result pynum :=
  match p with
  | PyInt z => Ok (PyInt (n * z))
  | PyFloat f => fn <- int_to_float n ;; Ok (PyFloat (fn * f)%float)
  end.

(** [f * z] for a float [f] and an int [z]. *)
Definition float_mul_int (f : float) (z : Z) : result float :=
  fz <- int_to_float z ;; Ok (f * fz)%float.

(** [f / d] for a float [f] and an int [d]. *)
Definition float_div_int (f : float) (d : Z) : result float :=
  fd <- int_to_float d ;; float_div f fd.

(** [x / d] for a number [x] and an int [d]. *)
Definition num_truediv_int (x : pynum) (d : Z) : result float :=
  match x with
  | PyInt a => int_truediv a d
  | PyFloat f => float_div_int f d
  end.

(** ** The [math] module *)

(** The exact value of a finite double, as a rational. *)
Definition SF2Q (x : spec_float) : option Q :=
  match x with
  | S754_zero _ => Some 0%Q
  | S754_finite s m e =>
    let z := if s then Zneg m else Zpos m in
    Some (match e with
          | Zneg p => Qmake z (2 ^ p)
          | _ => Qmake (z * 2 ^ e) 1
          end)
  | _ => None
  end.

Definition float_value (x : float) : option Q := SF2Q (Prim2SF x).

(** [math.ceil]: the least integer not below [x]; ValueError on NaN,
    OverflowError on an infinity. *)
Definition math_ceil (x : float) : result Z :=
  match Prim2SF x with
  | S754_nan => Raise ValueError
  | S754_infinity _ => Raise OverflowError
  | S754_zero _ => Ok 0
  | S754_finite s m e =>
    let z := if s then Zneg m else Zpos m in
    Ok (match e with
        | Zneg p => - ((- z) / Zpos (2 ^ p))
        | _ => z * 2 ^ e
        end)
  end.

(** [range(n)]. *)
Definition range (n : Z) : list Z := map Z.of_nat (seq 0 (Z.to_nat n)).

(** A [for] loop whose body may raise, threading the loop's state. *)
Fixpoint for_each {A S : Type} (xs : list A) (body : S -> A -> result S)
  (s : S) : result S :=
  match xs with
  | [] => Ok s
  | x :: xs' => s' <- body s x ;; for_each xs' body s'
  end.

(** ** The program *)

(** Module constants. *)
Definition VOLUMEN_DORAYAKI : float := 0.00015.
Definition VOLUMEN_CANICA : float := 0.0000001.
Definition TIEMPO_DUPLICACION : pynum := PyInt (5 * 60).
Definition VOLUMEN_SISTEMA_SOLAR : float := 3.69e38.
Definition VOLUMEN_TOKYO_DOME : float := 1.24e6.
Definition VOLUMEN_PELOTA_FUTBOL : float := 0.0056.

(** A point of the series: (minutes, volume, duplication index). *)
Definition punto : Set := float * float * Z.

Section Programa.

(** The platform's base-2 logarithm on doubles (libm), which [math.log2]
    calls on finite positive arguments. *)
Variable libm_log2 : float -> float.

(** [math.log2]: NaN and +infinity pass through, a non-positive argument
    is a domain error, and so is a NaN or an infinity that libm returns
    for a finite argument. *)
Definition math_log2 (x : float) : result float :=
  if is_nan x then Ok x
  else if (0 <? x)%float then
    if is_infinity x then Ok x
    else
      let r := libm_log2 x in
      if is_nan r || is_infinity r then Raise ValueError else Ok r
  else Raise ValueError.

(** The body of the loop of lines 44-47, for a float initial volume: line
    46 then converts [2 ** n] to float before it multiplies. *)
Definition paso (volumen_inicial : float) (tiempo_duplicacion : pynum)
  (datos_evolucion : list punto) (n : Z) : result (list punto) :=
  tiempo_actual <- int_mul_num n tiempo_duplicacion ;;
  volumen_actual <- float_mul_int volumen_inicial (2 ^ n) ;;
  minutos <- num_truediv_int tiempo_actual 60 ;;
  Ok (datos_evolucion ++ [(minutos, volumen_actual, n)]).

(** Lines 20-49.  The two volumes are floats, the type the docstring gives
    them (lines 25-26); the period is an int, as in the docstring and the
    default, or a float. *)
Definition calcular_tiempo_para_volumen
  (volumen_objetivo volumen_inicial : float) (tiempo_duplicacion : pynum)
  : result (pynum * Z * list punto) :=
  if (volumen_inicial <=? 0)%float || (volumen_objetivo <=? volumen_inicial)%float
  then Ok (PyInt 0, 0, [])
  else
    cociente <- float_div volumen_objetivo volumen_inicial ;;
    logaritmo <- math_log2 cociente ;;
    duplicaciones_necesarias <- math_ceil logaritmo ;;
    tiempo_total_segundos <- int_mul_num duplicaciones_necesarias tiempo_duplicacion ;;
    tiempo_total_minutos <- num_truediv_int tiempo_total_segundos 60 ;;
    tiempo_total_horas <- float_div_int tiempo_total_minutos 60 ;;
    tiempo_total_dias <- float_div_int tiempo_total_horas 24 ;;
    datos_evolucion <-
      for_each (range (duplicaciones_necesarias + 1))
               (paso volumen_inicial tiempo_duplicacion) [] ;;
    Ok (PyFloat tiempo_total_minutos, duplicaciones_necesarias, datos_evolucion).

End Programa.

(** The point the loop body computes at index [k]. *)
Definition punto_de (volumen_inicial : float) (tiempo_duplicacion : pynum)
  (k : Z) : result punto :=
  tiempo_actual <- int_mul_num k tiempo_duplicacion ;;
  volumen_actual <- float_mul_int volumen_inicial (2 ^ k) ;;
  minutos <- num_truediv_int tiempo_actual 60 ;;
  Ok (minutos, volumen_actual, k).

(** ** A reference logarithm

    [log2_ref] computes the base-2 logarithm of a positive double by the
    digit-by-digit squaring method in 400-bit fixed point, 120 fraction
    bits, and rounds to the nearest double.  It stands for the platform's
    logarithm where the program is run on concrete inputs. *)

Definition log2_prec : Z := 400.
Definition log2_bits : nat := 120.

Fixpoint log2_frac (fuel : nat) (y acc : Z) : Z :=
  match fuel with
  | O => acc
  | S fuel' =>
    let y2 := Z.shiftr (y * y) log2_prec in
    if 2 ^ (log2_prec + 1) <=? y2
    then log2_frac fuel' (Z.shiftr y2 1) (2 * acc + 1)
    else log2_frac fuel' y2 (2 * acc)
  end.

Definition log2_ref (x : float) : float :=
  match Prim2SF x with
  | S754_finite false m e =>
    let d := Zpos (digits2_pos m) in
    let y := Zpos m * 2 ^ (log2_prec - (d - 1)) in
    let frac := log2_frac log2_bits y 0 in
    SF2Prim (binary_normalize prec emax
               ((e + d - 1) * 2 ^ Z.of_nat log2_bits + frac)
               (- Z.of_nat log2_bits) false)
  | S754_zero _ => neg_infinity
  | S754_infinity false => infinity
  | _ => nan
  end.

(** ** Rounding to the nearest double

    The vocabulary in which the rounding performed by the Standard
    Library's [SFdiv] and [binary_normalize] is specified. *)

(** Powers of two, with any integer exponent. *)
Definition Q2 (e : Z) : Q := Qpower 2 e.

(** [inb m l x]: the location [l] places [x] in the interval from [m] to
    [m + 1]. *)
Definition inb (m : Z) (l : location) (x : Q) : Prop :=
  match l with
  | loc_Exact => (x == inject_Z m)%Q
  | loc_Inexact Lt => (inject_Z m < x)%Q /\ (x < inject_Z m + (1 # 2))%Q
  | loc_Inexact Eq => (x == inject_Z m + (1 # 2))%Q
  | loc_Inexact Gt => (inject_Z m + (1 # 2) < x)%Q /\ (x < inject_Z m + 1)%Q
  end.

(** [rounds_to X res s]: [res] is the positive rational [X], with sign [s],
    rounded to the nearest double (overflowing to an infinity). *)
Definition rounds_to (X : Q) (res : spec_float) (s : bool) : Prop :=
  exists D m : Z,
    (Q2 (D - 1) <= X)%Q /\ (X < Q2 D)%Q /\ 0 <= m /\
    (inject_Z m - X / Q2 (Z.max (D - 53) (-1074)) <= 1 # 2)%Q /\
    (X / Q2 (Z.max (D - 53) (-1074)) - inject_Z m <= 1 # 2)%Q /\
    (forall z : Z, (X / Q2 (Z.max (D - 53) (-1074)) <= inject_Z z)%Q -> m <= z) /\
    (forall z : Z, (inject_Z z <= X / Q2 (Z.max (D - 53) (-1074)))%Q -> z <= m) /\
    match res with
    | S754_zero s' => s' = s /\ m = 0
    | S754_finite s' mr er =>
        s' = s /\ bounded prec emax mr er = true /\
        (inject_Z (Zpos mr) * Q2 er == inject_Z m * Q2 (Z.max (D - 53) (-1074)))%Q
    | S754_infinity s' =>
        s' = s /\ (Q2 1024 <= inject_Z m * Q2 (Z.max (D - 53) (-1074)))%Q
    | S754_nan => False
    end.

(** Magnitude of a finite double. *)
Definition SFmag (m : positive) (e : Z) : Q := inject_Z (Zpos m) * Q2 e.

(** ** Conditions on the platform's logarithm and on the inputs *)

(** [log2_brackets x l]: the double [l], taken as the logarithm of [x], is
    on the right side of every integer: [2 ^ (ceil l - 1) < x] and
    [x < 2 ^ (floor l + 1)].  A logarithm that is monotone and exact on
    the powers of two has this property. *)
Definition log2_brackets (x l : float) : Prop :=
  match float_value x, float_value l with
  | Some qx, Some ql =>
      (Q2 (Qceiling ql - 1) < qx)%Q /\ (qx < Q2 (Qfloor ql + 1))%Q
  | _, _ => False
  end.

(** What the function does once the number of duplications is known
    (lines 37-49). *)
Definition tras_duplicaciones (volumen_inicial : float)
  (tiempo_duplicacion : pynum) (duplicaciones_necesarias : Z)
  : result (pynum * Z * list punto) :=
  tiempo_total_segundos <- int_mul_num duplicaciones_necesarias tiempo_duplicacion ;;
  tiempo_total_minutos <- num_truediv_int tiempo_total_segundos 60 ;;
  tiempo_total_horas <- float_div_int tiempo_total_minutos 60 ;;
  tiempo_total_dias <- float_div_int tiempo_total_horas 24 ;;
  datos_evolucion <-
    for_each (range (duplicaciones_necesarias + 1))
             (paso volumen_inicial tiempo_duplicacion) [] ;;
  Ok (PyFloat tiempo_total_minutos, duplicaciones_necesarias, datos_evolucion).

(** A doubling period whose products with the counts stay in range: any
    float, or an int of at most 1000 bits. *)
Definition periodo_acotado (tiempo_duplicacion : pynum) : Prop :=
  match tiempo_duplicacion with
  | PyInt z => Z.abs z <= 2 ^ 1000
  | PyFloat _ => True
  end.

(** The inputs on which the call is shown to return: the degenerate ones,
    and the non-degenerate ones whose quotient is finite and whose
    logarithm is a finite double with a ceiling from 0 to 1023. *)
Definition entrada_segura (libm_log2 : float -> float)
  (volumen_objetivo volumen_inicial : float) (tiempo_duplicacion : pynum)
  : Prop :=
  (volumen_inicial <=? 0)%float || (volumen_objetivo <=? volumen_inicial)%float = true \/
  ((0 <? volumen_inicial)%float = true /\
   (volumen_inicial <? volumen_objetivo)%float = true /\
   is_infinity (volumen_objetivo / volumen_inicial) = false /\
   periodo_acotado tiempo_duplicacion /\
   exists ql,
     float_value (libm_log2 (volumen_objetivo / volumen_inicial)%float) = Some ql /\
     0 <= Qceiling ql <= 1023).

(** The series for a target of 4 from a volume of 1 with the default period. *)
Definition serie_4_1 : list punto :=
  [(0%float, 1%float, 0); (5%float, 2%float, 1); (10%float, 4%float, 2)].

(** ** The objectives of the bar chart

    The loop of [visualizar_crecimiento_exponencial] (lines 215-219): for
    every objective above one dorayaki, the minutes to reach it from one
    dorayaki and its name are appended to [tiempos_objetivos] and
    [nombres]. *)
Definition objetivos : list (String.string * float) :=
  [ ("Canica
(1cm³)"%string, VOLUMEN_CANICA);
    ("Dorayaki"%string, VOLUMEN_DORAYAKI);
    ("Pelota"%string, VOLUMEN_PELOTA_FUTBOL);
    ("Tokyo Dome"%string, VOLUMEN_TOKYO_DOME);
    ("Tierra"%string, 1.08321e21%float);
    ("Sistema Solar"%string, VOLUMEN_SISTEMA_SOLAR) ].

Definition paso_objetivo (libm_log2 : float -> float)
  (listas : list pynum * list String.string)
  (objetivo : String.string * float)
  : result (list pynum * list String.string) :=
  let '(tiempos_objetivos, nombres) := listas in
  let '(nombre, volumen) := objetivo in
  if (VOLUMEN_DORAYAKI <? volumen)%float then
    resultado <- calcular_tiempo_para_volumen libm_log2 volumen VOLUMEN_DORAYAKI
                   TIEMPO_DUPLICACION ;;
    let '(tiempo, _, _) := resultado in
    Ok (tiempos_objetivos ++ [tiempo], nombres ++ [nombre])
  else Ok (tiempos_objetivos, nombres).

Definition tiempos_de_objetivos (libm_log2 : float -> float)
  (objetivos : list (String.string * float))
  : result (list pynum * list String.string) :=
  for_each objetivos (paso_objetivo libm_log2) ([], []).

(** The objectives that pass the test of line 216. *)
Definition sobre_dorayaki (objetivo : String.string * float) : bool :=
  (VOLUMEN_DORAYAKI <? snd objetivo)%float.

(** ** What the results are measured against *)

(** [nearest_double x f]: the double [f] is the real [x] rounded to a
    nearest double, [0.0] for [x = 0]. *)
Definition nearest_double (x : Q) (f : float) : Prop :=
  match (x ?= 0)%Q with
  | Eq => f = 0%float
  | Gt => rounds_to x (Prim2SF f) false
  | Lt => rounds_to (- x) (Prim2SF f) true
  end.

(** The periods with which the elapsed minutes are shown to grow: an int
    above zero, or a float from [2 ^ -1067] (about 6.3e-322) to [2 ^ 1014]
    (about 1.75e305).  Below, [(k * period) / 60] falls between the
    subnormal doubles; above, [1023 * period] overflows. *)
Definition periodo_regular (tiempo_duplicacion : pynum) : Prop :=
  match tiempo_duplicacion with
  | PyInt z => 0 < z
  | PyFloat g =>
      exists qg, float_value g = Some qg /\
                 (Q2 (-1067) <= qg)%Q /\ (qg <= Q2 1014)%Q
  end.

(** The series of [calcular_tiempo_para_volumen(12.0, 3.0, 90.0)]. *)
Definition serie_12_3 : list punto :=
  [(0%float, 3%float, 0); (1.5%float, 6%float, 1); (3%float, 12%float, 2)].

(** * Properties *)

(** ** The error monad and the loop *)

Lemma bind_Ok {A B : Type} (c : result A) (k : A -> result B) (b : B) :
  bind c k = Ok b -> exists a, c = Ok a /\ k a = Ok b.
Proof.
  destruct c as [a|e]; simpl; intros H; [eauto | discriminate].
Qed.

Ltac bind_inv H :=
  let a := fresh "v" in
  let Ha := fresh "E" in
  apply bind_Ok in H; destruct H as (a & Ha & H).

Lemma range_length (n : Z) : length (range n) = Z.to_nat n.
Proof.
  unfold range. now rewrite length_map, length_seq.
Qed.

Lemma range_nth_error (n : Z) (j : nat) :
  (j < Z.to_nat n)%nat -> nth_error (range n) j = Some (Z.of_nat j).
Proof.
  intros Hj. unfold range.
  rewrite nth_error_map, nth_error_seq.
  destruct (Nat.ltb_spec j (Z.to_nat n)); [reflexivity | lia].
Qed.

Lemma paso_punto_de vi td acc k :
  paso vi td acc k = (pt <- punto_de vi td k ;; Ok (acc ++ [pt])).
Proof.
  unfold paso, punto_de.
  destruct (int_mul_num k td); simpl; [| reflexivity].
  destruct (float_mul_int vi (2 ^ k)); simpl; [| reflexivity].
  destruct (num_truediv_int a 60); reflexivity.
Qed.

Lemma for_each_paso vi td ks :
  forall acc s,
    for_each ks (paso vi td) acc = Ok s ->
    exists pts, s = acc ++ pts /\
                Forall2 (fun k pt => punto_de vi td k = Ok pt) ks pts.
Proof.
  induction ks as [|k ks IH]; simpl; intros acc s H.
  - injection H as <-. exists []. split; [now rewrite app_nil_r | constructor].
  - bind_inv H. rewrite paso_punto_de in E. bind_inv E.
    injection E as <-.
    destruct (IH _ _ H) as (pts & -> & HF).
    exists (v0 :: pts). split; [now rewrite <- app_assoc | now constructor].
Qed.

Lemma for_each_paso_total vi td ks :
  (forall k, In k ks -> exists pt, punto_de vi td k = Ok pt) ->
  forall acc, exists s, for_each ks (paso vi td) acc = Ok s.
Proof.
  induction ks as [|k ks IH]; simpl; intros Hk acc.
  - eauto.
  - destruct (Hk k (or_introl eq_refl)) as (pt & Hpt).
    rewrite paso_punto_de, Hpt. simpl. apply IH. intros; apply Hk; now right.
Qed.


(** ** Float comparisons *)

Lemma SFcompare_antisym x y :
  SFcompare y x = option_map CompOpp (SFcompare x y).
Proof.
  destruct x as [sx|sx| |sx mx ex], y as [sy|sy| |sy my ey]; simpl;
    try reflexivity;
    try (destruct sx; reflexivity); try (destruct sy; reflexivity);
    try (destruct sx, sy; reflexivity).
  pose proof (Pos.compare_cont_antisym mx my Eq) as Hm. simpl in Hm.
  rewrite (Z.compare_antisym ex ey), <- Hm.
  destruct sx, sy; simpl; try reflexivity;
    destruct (ex ?= ey); simpl; try reflexivity;
    now rewrite CompOpp_involutive.
Qed.

Lemma ltb_leb_false (x y : float) :
  (x <? y)%float = true -> (y <=? x)%float = false.
Proof.
  rewrite ltb_spec, leb_spec. unfold SFltb, SFleb.
  rewrite (SFcompare_antisym (Prim2SF x) (Prim2SF y)).
  destruct (SFcompare (Prim2SF x) (Prim2SF y)) as [[]|]; simpl;
    intros; congruence.
Qed.

Lemma no_degenerado (volumen_objetivo volumen_inicial : float) :
  (0 <? volumen_inicial)%float = true ->
  (volumen_inicial <? volumen_objetivo)%float = true ->
  (volumen_inicial <=? 0)%float || (volumen_objetivo <=? volumen_inicial)%float = false.
Proof.
  intros H0 H1. now rewrite (ltb_leb_false _ _ H0), (ltb_leb_false _ _ H1).
Qed.

(** What a returned result of the main branch is made of. *)
Lemma calcular_Ok libm t i p m n s :
  (i <=? 0)%float || (t <=? i)%float = false ->
  calcular_tiempo_para_volumen libm t i p = Ok (m, n, s) ->
  exists l secs mins,
    math_log2 libm (t / i)%float = Ok l /\
    math_ceil l = Ok n /\
    int_mul_num n p = Ok secs /\
    num_truediv_int secs 60 = Ok mins /\
    m = PyFloat mins /\
    for_each (range (n + 1)) (paso i p) [] = Ok s.
Proof.
  intros Hg H. unfold calcular_tiempo_para_volumen in H. rewrite Hg in H.
  bind_inv H. unfold float_div in E. destruct (i =? 0)%float; [discriminate|].
  injection E as <-.
  bind_inv H. bind_inv H. bind_inv H. bind_inv H. bind_inv H. bind_inv H.
  bind_inv H. injection H as <- <- <-.
  eauto 10.
Qed.

(** ** Rounding to the nearest double *)

Lemma Q2_pos e : (0 < Q2 e)%Q.
Proof. apply Qpower_0_lt. reflexivity. Qed.

Lemma Q2_add a b : (Q2 (a + b) == Q2 a * Q2 b)%Q.
Proof. apply Qpower_plus. discriminate. Qed.

Lemma Q2_succ a : (Q2 (a + 1) == 2 * Q2 a)%Q.
Proof. rewrite Q2_add. unfold Q2 at 2. simpl. lra. Qed.

Lemma Q2_Z e : 0 <= e -> (Q2 e == inject_Z (2 ^ e))%Q.
Proof. intros. unfold Q2. now rewrite Zpower_Qpower. Qed.

Lemma Q2_le a b : a <= b -> (Q2 a <= Q2 b)%Q.
Proof. intros. apply Qpower_le_compat_l; [assumption | lra]. Qed.

Lemma Q2_lt a b : a < b -> (Q2 a < Q2 b)%Q.
Proof. intros. apply Qpower_lt_compat_l; [assumption | lra]. Qed.

Lemma Q2_lt_inv a b : (Q2 a < Q2 b)%Q -> a < b.
Proof. intros. apply Qpower_lt_compat_l_inv with (q := 2%Q); [assumption | lra]. Qed.

Lemma Q2_le_inv a b : (Q2 a <= Q2 b)%Q -> a <= b.
Proof. intros. apply Qpower_le_compat_l_inv with (q := 2%Q); [assumption | lra]. Qed.

Lemma inb_ext m l x y : (x == y)%Q -> inb m l x -> inb m l y.
Proof.
  intros E. destruct l as [|[]]; simpl; rewrite E; auto.
Qed.

Lemma digits2_pos_bounds p :
  2 ^ (Zpos (digits2_pos p) - 1) <= Zpos p < 2 ^ Zpos (digits2_pos p).
Proof.
  induction p as [p IH|p IH|]; simpl digits2_pos;
    try (rewrite Pos2Z.inj_succ;
         replace (Z.succ (Zpos (digits2_pos p)) - 1) with (Z.succ (Zpos (digits2_pos p) - 1)) by lia;
         rewrite !Z.pow_succ_r by lia; lia).
  simpl. lia.
Qed.

Lemma Zdigits2_bounds m :
  0 < m -> 2 ^ (Zdigits2 m - 1) <= m < 2 ^ Zdigits2 m.
Proof.
  destruct m as [|p|p]; try lia. intros _. apply digits2_pos_bounds.
Qed.

Lemma Zdigits2_pos m : 0 < m -> 0 < Zdigits2 m.
Proof. destruct m; simpl; lia. Qed.

Lemma Zdigits2_unique m k :
  0 < m -> 2 ^ (k - 1) <= m < 2 ^ k -> Zdigits2 m = k.
Proof.
  intros Hm [Hl Hu]. pose proof (Zdigits2_bounds m Hm) as [Hl' Hu'].
  pose proof (Zdigits2_pos m Hm) as Hd.
  assert (0 < k).
  { destruct k as [|k|k]; [simpl in Hu; lia | lia |].
    rewrite (Z.pow_neg_r 2 (Zneg k)) in Hu by lia. lia. }
  assert (k - 1 < Zdigits2 m) by (apply (Z.pow_lt_mono_r_iff 2); lia).
  assert (Zdigits2 m - 1 < k) by (apply (Z.pow_lt_mono_r_iff 2); lia).
  lia.
Qed.

Lemma inject_Z_xO p : (inject_Z (Zpos p~0) == 2 * inject_Z (Zpos p))%Q.
Proof. rewrite Pos2Z.inj_xO, inject_Z_mult. reflexivity. Qed.

Lemma inject_Z_xI p : (inject_Z (Zpos p~1) == 2 * inject_Z (Zpos p) + 1)%Q.
Proof. rewrite Pos2Z.inj_xI, inject_Z_plus, inject_Z_mult. reflexivity. Qed.

Lemma shr_1_m mrs : 0 <= shr_m mrs -> shr_m (shr_1 mrs) = shr_m mrs / 2.
Proof.
  destruct mrs as [m r s]. simpl shr_m at 1 3.
  destruct m as [|[p|p|]|]; simpl; try reflexivity; try lia; intros _.
  - rewrite Pos2Z.inj_xI. apply Z.div_unique with 1; lia.
  - rewrite Pos2Z.inj_xO. apply Z.div_unique with 0; lia.
Qed.

(** One right shift halves the located value. *)
Lemma shr_1_spec mrs x :
  0 <= shr_m mrs ->
  inb (shr_m mrs) (loc_of_shr_record mrs) x ->
  inb (shr_m (shr_1 mrs)) (loc_of_shr_record (shr_1 mrs)) (x * (1 # 2)).
Proof.
  destruct mrs as [m r s]. simpl shr_m at 1 2.
  intros Hm H.
  destruct m as [|[p|p|]|]; try lia; clear Hm;
    destruct r, s; simpl in *;
    try rewrite inject_Z_xO in H; try rewrite inject_Z_xI in H;
    try (change (inject_Z 1) with 1%Q in H);
    try (change (inject_Z 0) with 0%Q in H);
    try (change (inject_Z 0) with 0%Q);
    lra.
Qed.

(** [p] right shifts divide the located value by [2 ^ p]. *)
Lemma iter_shr_1_spec p :
  forall mrs x,
    0 <= shr_m mrs ->
    inb (shr_m mrs) (loc_of_shr_record mrs) x ->
    inb (shr_m (iter_pos shr_1 p mrs))
        (loc_of_shr_record (iter_pos shr_1 p mrs)) (x / Q2 (Zpos p)) /\
    shr_m (iter_pos shr_1 p mrs) = shr_m mrs / 2 ^ Zpos p.
Proof.
  induction p as [p IH|p IH|]; intros mrs x Hm H; simpl iter_pos.
  - pose proof (shr_1_spec _ _ Hm H) as H1.
    pose proof (shr_1_m _ Hm) as E1.
    assert (Hm1 : 0 <= shr_m (shr_1 mrs)) by (rewrite E1; apply Z.div_pos; lia).
    destruct (IH _ _ Hm1 H1) as [H2 E2].
    assert (Hm2 : 0 <= shr_m (iter_pos shr_1 p (shr_1 mrs)))
      by (rewrite E2; apply Z.div_pos; lia).
    destruct (IH _ _ Hm2 H2) as [H3 E3].
    split.
    + eapply inb_ext; [| exact H3].
      rewrite Pos2Z.inj_xI.
      replace (2 * Zpos p + 1) with (Zpos p + Zpos p + 1) by lia.
      rewrite Q2_succ, Q2_add. pose proof (Q2_pos (Zpos p)). field. lra.
    + rewrite E3, E2, E1, !Z.div_div by lia.
      f_equal. change 2 with (2 ^ 1) at 1.
      rewrite <- !Z.pow_add_r by lia. f_equal. lia.
  - destruct (IH _ _ Hm H) as [H2 E2].
    assert (Hm2 : 0 <= shr_m (iter_pos shr_1 p mrs))
      by (rewrite E2; apply Z.div_pos; lia).
    destruct (IH _ _ Hm2 H2) as [H3 E3].
    split.
    + eapply inb_ext; [| exact H3].
      rewrite Pos2Z.inj_xO.
      replace (2 * Zpos p) with (Zpos p + Zpos p) by lia.
      rewrite Q2_add. pose proof (Q2_pos (Zpos p)). field. lra.
    + rewrite E3, E2, !Z.div_div by lia.
      f_equal. rewrite <- Z.pow_add_r by lia. f_equal. lia.
  - split.
    + eapply inb_ext; [| apply (shr_1_spec _ _ Hm H)].
      unfold Q2. simpl. field.
    + rewrite shr_1_m by assumption. reflexivity.
Qed.

Lemma loc_of_shr_record_of_loc m l :
  loc_of_shr_record (shr_record_of_loc m l) = l.
Proof. destruct l as [|[]]; reflexivity. Qed.

Lemma shr_m_of_loc m l : shr_m (shr_record_of_loc m l) = m.
Proof. destruct l as [|[]]; reflexivity. Qed.

Lemma shr_spec m l e n x :
  0 <= m -> inb m l x ->
  e + Z.max 0 n = snd (shr (shr_record_of_loc m l) e n) /\
  shr_m (fst (shr (shr_record_of_loc m l) e n)) = m / 2 ^ Z.max 0 n /\
  inb (shr_m (fst (shr (shr_record_of_loc m l) e n)))
      (loc_of_shr_record (fst (shr (shr_record_of_loc m l) e n)))
      (x / Q2 (Z.max 0 n)).
Proof.
  intros Hm H. destruct n as [|p|p]; simpl shr; simpl Z.max; simpl fst; simpl snd.
  - rewrite shr_m_of_loc, loc_of_shr_record_of_loc, Z.div_1_r.
    repeat split; try lia. eapply inb_ext; [| exact H]. unfold Q2; simpl; field.
  - destruct (iter_shr_1_spec p (shr_record_of_loc m l) x) as [H1 E1].
    + now rewrite shr_m_of_loc.
    + now rewrite shr_m_of_loc, loc_of_shr_record_of_loc.
    + rewrite shr_m_of_loc in E1. auto.
  - rewrite shr_m_of_loc, loc_of_shr_record_of_loc, Z.div_1_r.
    repeat split; try lia. eapply inb_ext; [| exact H]. unfold Q2; simpl; field.
Qed.

(** Rounding a located value: the result is within one half of it and
    on the same side of every integer. *)
Lemma round_nearest_even_spec m l x :
  inb m l x ->
  m <= round_nearest_even m l <= m + 1 /\
  (inject_Z (round_nearest_even m l) - x <= 1 # 2)%Q /\
  (x - inject_Z (round_nearest_even m l) <= 1 # 2)%Q /\
  (forall z : Z, (x <= inject_Z z)%Q -> round_nearest_even m l <= z) /\
  (forall z : Z, (inject_Z z <= x)%Q -> z <= round_nearest_even m l).
Proof.
  intros H.
  assert (Hup : forall z : Z, (inject_Z m < inject_Z z)%Q -> m + 1 <= z).
  { intros z Hz. rewrite <- Zlt_Qlt in Hz. lia. }
  assert (Hdn : forall z : Z, (inject_Z z < inject_Z m + 1)%Q -> z <= m).
  { intros z Hz. change 1%Q with (inject_Z 1) in Hz.
    rewrite <- inject_Z_plus, <- Zlt_Qlt in Hz. lia. }
  assert (Hle : forall a b : Z, (inject_Z a <= inject_Z b)%Q -> a <= b).
  { intros a b Hab. now rewrite Zle_Qle. }
  assert (E1 : (inject_Z (m + 1) == inject_Z m + 1)%Q)
    by (rewrite inject_Z_plus; reflexivity).
  destruct l as [|[]]; simpl in *.
  - repeat split; try lia; try lra; intros z Hz; apply Hle; lra.
  - destruct (Z.even m); rewrite ?E1; repeat split; try lia; try lra; intros z Hz;
      first [ apply Hup; lra | apply Hdn; lra | apply Hle; lra
            | (assert (z <= m) by (apply Hdn; lra); lia)
            | (assert (m + 1 <= z) by (apply Hup; lra); lia) ].
  - destruct H. repeat split; try lia; try lra; intros z Hz;
      first [ apply Hle; lra | (assert (z <= m) by (apply Hdn; lra); lia)
            | (assert (m + 1 <= z) by (apply Hup; lra); lia) ].
  - destruct H. rewrite ?E1. repeat split; try lia; try lra; intros z Hz;
      first [ apply Hup; lra | apply Hdn; lra | apply Hle; lra
            | (assert (z <= m) by (apply Hdn; lra); lia)
            | (assert (m + 1 <= z) by (apply Hup; lra); lia) ].
Qed.

Lemma fexp_eq x : fexp prec emax x = Z.max (x - 53) (-1074).
Proof. reflexivity. Qed.

Lemma shr_fexp_spec m l e x :
  0 <= m -> inb m l x ->
  forall mrs e',
    shr_fexp prec emax m e l = (mrs, e') ->
    let n := Z.max 0 (fexp prec emax (Zdigits2 m + e) - e) in
    e' = e + n /\ shr_m mrs = m / 2 ^ n /\
    inb (shr_m mrs) (loc_of_shr_record mrs) (x / Q2 n).
Proof.
  intros Hm H mrs e' E n. unfold shr_fexp in E.
  destruct (shr_spec m l e (fexp prec emax (Zdigits2 m + e) - e) x Hm H)
    as (H1 & H2 & H3).
  rewrite E in H1, H2, H3. simpl in H1, H2, H3. subst n. auto.
Qed.

(** The second normalisation of [binary_round_aux]: a rounded mantissa
    [m2] of at most [w] digits, or [2 ^ w] after a carry. *)
Lemma shr_fexp_carry m2 e1 w :
  0 < m2 -> -1074 <= e1 -> w <= 53 -> (w = 53 \/ e1 = -1074) ->
  m2 <= 2 ^ Z.max w 0 -> (1 <= w -> 2 ^ (w - 1) <= m2) ->
  forall mrs e2,
    shr_fexp prec emax m2 e1 loc_Exact = (mrs, e2) ->
    exists m3 : positive,
      shr_m mrs = Zpos m3 /\
      canonical_mantissa prec emax m3 e2 = true /\
      (inject_Z (Zpos m3) * Q2 e2 == inject_Z m2 * Q2 e1)%Q.
Proof.
  intros Hm He Hw Hwe Hub Hlb mrs e2 E.
  assert (Hx : inb m2 loc_Exact (inject_Z m2)) by (simpl; reflexivity).
  destruct (shr_fexp_spec m2 loc_Exact e1 _ ltac:(lia) Hx mrs e2 E) as (E2 & E3 & _).
  rewrite fexp_eq in E2, E3.
  pose proof (Zdigits2_bounds m2 Hm) as [Hd1 Hd2].
  pose proof (Zdigits2_pos m2 Hm) as Hd0.
  set (d2 := Zdigits2 m2) in *.
  assert (Hd3 : d2 <= Z.max w 0 + 1).
  { assert (d2 - 1 < Z.max w 0 + 1); [| lia].
    apply (Z.pow_lt_mono_r_iff 2); try lia.
    rewrite Z.pow_add_r by lia. change (2 ^ 1) with 2. lia. }
  destruct (Z.eq_dec d2 (Z.max w 0 + 1)) as [Hc|Hc].
  - (* carry: m2 = 2 ^ max w 0 *)
    assert (Em : m2 = 2 ^ Z.max w 0).
    { rewrite Hc in Hd1. replace (Z.max w 0 + 1 - 1) with (Z.max w 0) in Hd1 by lia. lia. }
    destruct (Z.eq_dec w 53) as [Hw53|Hw53].
    + subst w. replace (Z.max 53 0) with 53 in * by lia.
      replace (Z.max 0 (Z.max (d2 + e1 - 53) (-1074) - e1)) with 1 in E2, E3 by lia.
      assert (E4 : shr_m mrs = 2 ^ 52).
      { rewrite E3, Em. reflexivity. }
      exists (Z.to_pos (2 ^ 52)). split; [rewrite E4; reflexivity|]. split.
      * unfold canonical_mantissa. rewrite fexp_eq. apply Z.eqb_eq.
        change (Zpos (digits2_pos (Z.to_pos (2 ^ 52)))) with 53. lia.
      * rewrite E2, Q2_succ, Em.
        change (inject_Z (Zpos (Z.to_pos (2 ^ 52)))) with (inject_Z (2 ^ 52)).
        change (inject_Z (2 ^ 53)) with (2 * inject_Z (2 ^ 52))%Q at 1.
        set (a := inject_Z (2 ^ 52)). ring.
    + assert (e1 = -1074) by lia. subst e1.
      replace (Z.max 0 (Z.max (d2 + -1074 - 53) (-1074) - -1074)) with 0 in E2, E3 by lia.
      rewrite Z.div_1_r in E3. rewrite Z.add_0_r in E2. subst e2.
      exists (Z.to_pos m2). rewrite Z2Pos.id by lia. split; [assumption|]. split; [| reflexivity].
      unfold canonical_mantissa. rewrite fexp_eq. apply Z.eqb_eq.
      assert (Zpos (digits2_pos (Z.to_pos m2)) = d2).
      { subst d2. destruct m2; try lia. reflexivity. }
      lia.
  - (* no carry *)
    assert (Hd4 : d2 <= Z.max w 0) by lia.
    assert (Hd5 : w = 53 -> d2 = 53).
    { intros ->. assert (53 - 1 < d2); [| lia].
      apply (Z.pow_lt_mono_r_iff 2); lia. }
    replace (Z.max 0 (Z.max (d2 + e1 - 53) (-1074) - e1)) with 0 in E2, E3 by lia.
    rewrite Z.div_1_r in E3. rewrite Z.add_0_r in E2. subst e2.
    exists (Z.to_pos m2). rewrite Z2Pos.id by lia. split; [assumption|]. split; [| reflexivity].
    unfold canonical_mantissa. rewrite fexp_eq. apply Z.eqb_eq.
    assert (Zpos (digits2_pos (Z.to_pos m2)) = d2).
    { subst d2. destruct m2; try lia. reflexivity. }
    lia.
Qed.

Lemma canonical_normal m e :
  canonical_mantissa prec emax m e = true -> -1074 < e ->
  2 ^ 52 <= Zpos m < 2 ^ 53.
Proof.
  unfold canonical_mantissa. rewrite fexp_eq. intros H He.
  apply Z.eqb_eq in H.
  assert (Zpos (digits2_pos m) = 53) as Hd by lia.
  pose proof (digits2_pos_bounds m) as Hb. rewrite Hd in Hb. exact Hb.
Qed.

Lemma canonical_bound m e :
  canonical_mantissa prec emax m e = true -> -1074 <= e /\ Zpos m < 2 ^ 53.
Proof.
  unfold canonical_mantissa. rewrite fexp_eq. intros H.
  apply Z.eqb_eq in H.
  pose proof (digits2_pos_bounds m) as [_ Hb].
  split; [lia|].
  eapply Z.lt_le_trans; [exact Hb|]. apply Z.pow_le_mono_r; lia.
Qed.

(** The rounding step shared by all operations, for a positive value [X]
    located by the mantissa [mx] at exponent [ex]. *)
Lemma binary_round_aux_spec sx mx ex lx X :
  0 < mx -> inb mx lx (X / Q2 ex) ->
  ex <= fexp prec emax (Zdigits2 mx + ex) ->
  exists m2 : Z,
    0 <= m2 /\
    (inject_Z m2 - X / Q2 (fexp prec emax (Zdigits2 mx + ex)) <= 1 # 2)%Q /\
    (X / Q2 (fexp prec emax (Zdigits2 mx + ex)) - inject_Z m2 <= 1 # 2)%Q /\
    (forall z : Z, (X / Q2 (fexp prec emax (Zdigits2 mx + ex)) <= inject_Z z)%Q -> m2 <= z) /\
    (forall z : Z, (inject_Z z <= X / Q2 (fexp prec emax (Zdigits2 mx + ex)))%Q -> z <= m2) /\
    match binary_round_aux prec emax sx mx ex lx with
    | S754_zero s => s = sx /\ m2 = 0
    | S754_finite s m e =>
        s = sx /\ bounded prec emax m e = true /\
        (inject_Z (Zpos m) * Q2 e ==
         inject_Z m2 * Q2 (fexp prec emax (Zdigits2 mx + ex)))%Q
    | S754_infinity s =>
        s = sx /\
        (Q2 1024 <= inject_Z m2 * Q2 (fexp prec emax (Zdigits2 mx + ex)))%Q
    | S754_nan => False
    end.
Proof.
  intros Hmx H Hn.
  set (e1 := fexp prec emax (Zdigits2 mx + ex)) in *.
  pose proof (Zdigits2_bounds mx Hmx) as [Hd1 Hd2].
  pose proof (Zdigits2_pos mx Hmx) as Hd0.
  set (d := Zdigits2 mx) in *.
  assert (He1 : e1 = Z.max (d + ex - 53) (-1074)) by (subst e1; apply fexp_eq).
  unfold binary_round_aux.
  destruct (shr_fexp prec emax mx ex lx) as [mrs1 e1'] eqn:E1.
  destruct (shr_fexp_spec mx lx ex _ ltac:(lia) H mrs1 e1' E1) as (Ee & Em1 & H1).
  fold d in Ee, Em1, H1. fold e1 in Ee, Em1, H1.
  replace (Z.max 0 (e1 - ex)) with (e1 - ex) in * by lia.
  replace (ex + (e1 - ex)) with e1 in Ee by lia. subst e1'.
  assert (H1' : inb (shr_m mrs1) (loc_of_shr_record mrs1) (X / Q2 e1)).
  { eapply inb_ext; [| exact H1].
    replace e1 with (ex + (e1 - ex)) at 2 by lia. rewrite Q2_add.
    pose proof (Q2_pos ex). pose proof (Q2_pos (e1 - ex)). field. lra. }
  clear H1.
  set (n := e1 - ex) in *. set (m1 := shr_m mrs1) in *.
  destruct (round_nearest_even_spec _ _ _ H1') as (Hr1 & Hr2 & Hr3 & Hr4 & Hr5).
  set (m2 := round_nearest_even m1 (loc_of_shr_record mrs1)) in *.
  assert (Hm1 : 0 <= m1) by (rewrite Em1; apply Z.div_pos; lia).
  exists m2. repeat (split; [first [assumption | lia] |]).
  destruct (shr_fexp prec emax m2 e1 loc_Exact) as [mrs2 e2] eqn:E2.
  destruct (Z.eq_dec m2 0) as [Hz|Hz].
  - assert (Hx : inb m2 loc_Exact (inject_Z m2)) by (simpl; reflexivity).
    destruct (shr_fexp_spec m2 loc_Exact e1 _ ltac:(lia) Hx mrs2 e2 E2) as (_ & E3 & _).
    rewrite Hz in E3. rewrite Z.div_0_l in E3 by (apply Z.pow_nonzero; lia).
    rewrite E3. auto.
  - assert (Hpow : 2 ^ d = 2 ^ (d - n) * 2 ^ n -> True) by auto.
    destruct (shr_fexp_carry m2 e1 (d - n) ltac:(lia) ltac:(lia) ltac:(lia) ltac:(lia))
      with (mrs := mrs2) (e2 := e2) as (m3 & E3 & Hc & Hv); try assumption.
    + (* upper bound *)
      destruct (Z.le_gt_cases n d) as [Hnd|Hnd].
      * replace (Z.max (d - n) 0) with (d - n) by lia.
        assert (m1 < 2 ^ (d - n)); [| lia].
        rewrite Em1. apply Z.div_lt_upper_bound; [apply Z.pow_pos_nonneg; lia|].
        rewrite <- Z.pow_add_r by lia. replace (n + (d - n)) with d by lia. lia.
      * replace (Z.max (d - n) 0) with 0 by lia.
        assert (m1 = 0); [| change (2 ^ 0) with 1; lia].
        rewrite Em1. apply Z.div_small. split; [lia|].
        eapply Z.lt_le_trans; [exact Hd2|]. apply Z.pow_le_mono_r; lia.
    + (* lower bound *)
      intros Hw. assert (2 ^ (d - n - 1) <= m1); [| lia].
      rewrite Em1. apply Z.div_le_lower_bound; [apply Z.pow_pos_nonneg; lia|].
      rewrite <- Z.pow_add_r by lia. replace (n + (d - n - 1)) with (d - 1) by lia. lia.
    + rewrite E3.
      destruct (Z.leb_spec e2 (emax - prec)) as [Hov|Hov].
      * split; [reflexivity|]. split; [| exact Hv].
        unfold bounded. rewrite Hc. simpl. apply Z.leb_le. exact Hov.
      * split; [reflexivity|]. rewrite <- Hv.
        change (emax - prec) with 971 in Hov.
        pose proof (canonical_normal m3 e2 Hc ltac:(lia)) as [Hlo _].
        assert (Q2 1024 == inject_Z (2 ^ 52) * Q2 972)%Q as -> by reflexivity.
        pose proof (Q2_le 972 e2 ltac:(lia)).
        pose proof (Q2_pos 972).
        assert (inject_Z (2 ^ 52) <= inject_Z (Zpos m3))%Q by (rewrite <- Zle_Qle; exact Hlo).
        assert (0 < inject_Z (2 ^ 52))%Q by reflexivity.
        nra.
Qed.

Lemma inb_shift q l y : inb 0 l y -> inb q l (inject_Z q + y).
Proof.
  destruct l as [|[]]; simpl; change (inject_Z 0) with 0%Q; intros; lra.
Qed.

Lemma Qdiv_half_compare k p :
  (inject_Z k / inject_Z (Zpos p) ?= 1 # 2)%Q = (2 * k ?= Zpos p).
Proof.
  unfold Qcompare, Qdiv, Qmult, Qinv, inject_Z. simpl Qnum. simpl Qden.
  f_equal; lia.
Qed.

(** The location of a remainder [k] in a division by [nb]. *)
Lemma new_location_spec nb k :
  0 < nb -> 0 <= k < nb ->
  inb 0 (new_location nb k) (inject_Z k / inject_Z nb).
Proof.
  intros Hnb Hk. destruct nb as [|p|p]; try lia.
  assert (Hcmp := Qdiv_half_compare k p).
  set (y := (inject_Z k / inject_Z (Zpos p))%Q) in *.
  assert (Hy0 : k <> 0 -> (0 < y)%Q).
  { intros. subst y. apply Qlt_shift_div_l.
    - change 0%Q with (inject_Z 0). rewrite <- Zlt_Qlt. lia.
    - rewrite Qmult_0_l. change 0%Q with (inject_Z 0). rewrite <- Zlt_Qlt. lia. }
  assert (Hy1 : (y < 1)%Q).
  { subst y. apply Qlt_shift_div_r.
    - change 0%Q with (inject_Z 0). rewrite <- Zlt_Qlt. lia.
    - rewrite Qmult_1_l. rewrite <- Zlt_Qlt. lia. }
  assert (Hyz : k = 0 -> (y == 0)%Q).
  { intros ->. subst y. unfold Qdiv. change (inject_Z 0) with 0%Q. ring. }
  unfold new_location.
  destruct (Z.even (Zpos p)) eqn:Hev;
    unfold new_location_even, new_location_odd;
    (destruct (Z.eqb_spec k 0) as [Hz|Hz]; [simpl; apply (Hyz Hz) | specialize (Hy0 Hz)]).
  - destruct (2 * k ?= Zpos p) eqn:Hc; simpl; change (inject_Z 0) with 0%Q.
    + apply Qeq_alt in Hcmp. lra.
    + apply Qlt_alt in Hcmp. lra.
    + apply Qgt_alt in Hcmp. lra.
  - assert (Hodd : Z.odd (Zpos p) = true) by (rewrite <- Z.negb_even, Hev; reflexivity).
    apply Z.odd_spec in Hodd. destruct Hodd as [h Hh].
    destruct (2 * k + 1 ?= Zpos p) eqn:Hc; simpl; change (inject_Z 0) with 0%Q.
    + apply Z.compare_eq in Hc.
      assert (Hc' : (2 * k ?= Zpos p) = Lt) by (apply Z.compare_lt_iff; lia).
      rewrite Hc' in Hcmp. apply Qlt_alt in Hcmp. lra.
    + rewrite Z.compare_lt_iff in Hc.
      assert (Hc' : (2 * k ?= Zpos p) = Lt) by (apply Z.compare_lt_iff; lia).
      rewrite Hc' in Hcmp. apply Qlt_alt in Hcmp. lra.
    + rewrite Z.compare_gt_iff in Hc.
      assert (Hc' : (2 * k ?= Zpos p) = Gt) by (apply Z.compare_gt_iff; lia).
      rewrite Hc' in Hcmp. apply Qgt_alt in Hcmp. lra.
Qed.

Lemma inject_Z_pos_lt a b : a < b -> (inject_Z a < inject_Z b)%Q.
Proof. intros. now rewrite <- Zlt_Qlt. Qed.

Lemma inject_Z_pos_le a b : a <= b -> (inject_Z a <= inject_Z b)%Q.
Proof. intros. now rewrite <- Zle_Qle. Qed.

(** The integer division inside [SFdiv]: quotient, exponent and location
    of the exact ratio. *)
Lemma SFdiv_core_spec m1 e1 m2 e2 X q e l :
  (X == (inject_Z (Zpos m1) * Q2 e1) / (inject_Z (Zpos m2) * Q2 e2))%Q ->
  (Q2 (-1073) <= X)%Q ->
  SFdiv_core_binary prec emax (Zpos m1) e1 (Zpos m2) e2 = (q, e, l) ->
  0 < q /\ inb q l (X / Q2 e) /\ e <= fexp prec emax (Zdigits2 q + e).
Proof.
  intros HX Hlow. unfold SFdiv_core_binary.
  pose proof (Zdigits2_bounds (Zpos m1) ltac:(lia)) as [Ha1 Ha2].
  pose proof (Zdigits2_bounds (Zpos m2) ltac:(lia)) as [Hb1 Hb2].
  pose proof (Zdigits2_pos (Zpos m1) ltac:(lia)) as Ha0.
  pose proof (Zdigits2_pos (Zpos m2) ltac:(lia)) as Hb0.
  set (d1 := Zdigits2 (Zpos m1)) in *. set (d2 := Zdigits2 (Zpos m2)) in *.
  rewrite fexp_eq.
  set (e' := Z.min (Z.max (d1 + e1 - (d2 + e2) - 53) (-1074)) (e1 - e2)).
  set (s := e1 - e2 - e').
  assert (Hs : 0 <= s) by lia.
  set (m' := match s with Zpos _ => Z.shiftl (Zpos m1) s | 0 => Zpos m1 | Zneg _ => 0 end).
  assert (Em' : m' = Zpos m1 * 2 ^ s).
  { subst m'. destruct s as [|p|p] eqn:Es; try lia.
    - now rewrite Z.shiftl_mul_pow2 by lia. }
  pose proof (Z_div_mod m' (Zpos m2) ltac:(lia)) as Hdm.
  destruct (Z.div_eucl m' (Zpos m2)) as [q0 r0].
  destruct Hdm as [Hdm Hr]. intros [= <- <- <-].
  (* magnitude of the quotient *)
  pose proof (Q2_pos e1) as Pe1. pose proof (Q2_pos e2) as Pe2.
  pose proof (Q2_pos e') as Pe'.
  assert (Pm1 : (0 < inject_Z (Zpos m1))%Q) by (apply (inject_Z_pos_lt 0); lia).
  assert (Pm2 : (0 < inject_Z (Zpos m2))%Q) by (apply (inject_Z_pos_lt 0); lia).
  assert (HD : -1073 <= d1 + e1 - (d2 + e2)).
  { assert (X < Q2 (d1 + e1 - (d2 + e2) + 1))%Q as HXu.
    { rewrite HX. apply Qlt_shift_div_r; [nra|].
      replace (d1 + e1 - (d2 + e2) + 1) with ((d1 - (d2 - 1)) + (e1 - e2)) by lia.
      assert (Q2 (d1 - (d2 - 1) + (e1 - e2)) * Q2 e2 * Q2 (d2 - 1) == Q2 d1 * Q2 e1)%Q as E.
      { rewrite <- !Q2_add. replace (d1 - (d2 - 1) + (e1 - e2) + e2 + (d2 - 1)) with (d1 + e1) by lia.
        reflexivity. }
      assert (inject_Z (Zpos m1) < Q2 d1)%Q
        by (rewrite Q2_Z by lia; now apply inject_Z_pos_lt).
      assert (Q2 (d2 - 1) <= inject_Z (Zpos m2))%Q
        by (rewrite Q2_Z by lia; now apply inject_Z_pos_le).
      pose proof (Q2_pos (d1 - (d2 - 1) + (e1 - e2))) as PA.
      set (A := Q2 (d1 - (d2 - 1) + (e1 - e2))) in *.
      assert (inject_Z (Zpos m1) * Q2 e1 < Q2 d1 * Q2 e1)%Q
        by (apply Qmult_lt_compat_r; assumption).
      assert (A * Q2 e2 * Q2 (d2 - 1) <= A * Q2 e2 * inject_Z (Zpos m2))%Q
        by (apply Qmult_le_l; [nra | assumption]).
      lra. }
    assert (Q2 (-1073) < Q2 (d1 + e1 - (d2 + e2) + 1))%Q as Hlt by lra.
    apply Q2_lt_inv in Hlt. lia. }
  assert (Hw : 1 <= d1 + s - d2) by lia.
  assert (Hq : 2 ^ (d1 + s - d2 - 1) <= q0).
  { assert (E1 : 2 ^ (d1 - 1) * 2 ^ s = 2 ^ (d1 + s - d2 - 1) * 2 ^ d2).
    { rewrite <- !Z.pow_add_r by lia. f_equal. lia. }
    assert (0 < 2 ^ (d1 + s - d2 - 1)) by (apply Z.pow_pos_nonneg; lia).
    assert (0 < 2 ^ s) by (apply Z.pow_pos_nonneg; lia).
    nia. }
  assert (Hq0 : 0 < q0).
  { assert (0 < 2 ^ (d1 + s - d2 - 1)) by (apply Z.pow_pos_nonneg; lia). lia. }
  split; [exact Hq0|]. split.
  - apply inb_ext with (x := (inject_Z q0 + inject_Z r0 / inject_Z (Zpos m2))%Q).
    + rewrite HX.
      assert (Ee : (Q2 e1 == Q2 s * Q2 e2 * Q2 e')%Q).
      { rewrite <- !Q2_add. replace (s + e2 + e') with e1 by lia. reflexivity. }
      rewrite Ee.
      assert (Em : (inject_Z (Zpos m1) * Q2 s == inject_Z (Zpos m2) * inject_Z q0 + inject_Z r0)%Q).
      { rewrite Q2_Z by lia. rewrite <- !inject_Z_mult, <- inject_Z_plus.
        rewrite <- Em', Hdm. reflexivity. }
      pose proof (Q2_pos s) as Ps.
      field_simplify_eq; [rewrite Em; ring | repeat split; lra].
    + apply inb_shift. apply new_location_spec; lia.
  - pose proof (Zdigits2_bounds q0 Hq0) as [_ Hqd].
    pose proof (Zdigits2_pos q0 Hq0).
    assert (d1 + s - d2 - 1 < Zdigits2 q0)
      by (apply (Z.pow_lt_mono_r_iff 2); lia).
    rewrite fexp_eq. lia.
Qed.

Lemma Qdiv_mul_cancel X c : (0 < c)%Q -> (X / c * c == X)%Q.
Proof. intros. field. lra. Qed.

Lemma Qle_div_mul a X c : (0 < c)%Q -> (a <= X / c)%Q -> (a * c <= X)%Q.
Proof.
  intros Hc H. rewrite <- (Qdiv_mul_cancel X c Hc).
  apply Qmult_le_compat_r; lra.
Qed.

Lemma Qlt_div_mul a X c : (0 < c)%Q -> (X / c < a)%Q -> (X < a * c)%Q.
Proof.
  intros Hc H. rewrite <- (Qdiv_mul_cancel X c Hc).
  apply Qmult_lt_compat_r; lra.
Qed.


Lemma inb_bounds m l x : inb m l x -> (inject_Z m <= x)%Q /\ (x < inject_Z m + 1)%Q.
Proof. destruct l as [|[]]; simpl; intros; lra. Qed.

Lemma binary_round_aux_rounds sx mx ex lx X :
  0 < mx -> inb mx lx (X / Q2 ex) ->
  ex <= fexp prec emax (Zdigits2 mx + ex) ->
  rounds_to X (binary_round_aux prec emax sx mx ex lx) sx.
Proof.
  intros Hmx H Hn.
  destruct (binary_round_aux_spec sx mx ex lx X Hmx H Hn)
    as (m2 & H0 & H1 & H2 & H3 & H4 & H5).
  rewrite fexp_eq in *.
  exists (Zdigits2 mx + ex), m2.
  pose proof (Zdigits2_bounds mx Hmx) as [Hd1 Hd2].
  pose proof (Zdigits2_pos mx Hmx) as Hd0.
  destruct (inb_bounds _ _ _ H) as [Hb1 Hb2].
  pose proof (Q2_pos ex) as Pex.
  assert (Hlo : (Q2 (Zdigits2 mx - 1) <= X / Q2 ex)%Q).
  { rewrite (Q2_Z (Zdigits2 mx - 1)) by lia. apply inject_Z_pos_le in Hd1. lra. }
  assert (Hhi : (X / Q2 ex < Q2 (Zdigits2 mx))%Q).
  { rewrite (Q2_Z (Zdigits2 mx)) by lia.
    assert (inject_Z (mx + 1) <= inject_Z (2 ^ Zdigits2 mx))%Q
      by (apply inject_Z_pos_le; lia).
    rewrite inject_Z_plus in *. change (inject_Z 1) with 1%Q in *. lra. }
  repeat (split; [first [assumption | lia] |]).
  split; [| split; [| repeat (split; [assumption|]); exact H5]].
  - replace (Zdigits2 mx + ex - 1) with (Zdigits2 mx - 1 + ex) by lia.
    rewrite Q2_add. apply Qle_div_mul; assumption.
  - rewrite Q2_add. apply Qlt_div_mul; assumption.
Qed.

(** Rounding is monotone across the powers of two. *)
Lemma rounds_le_pow2 X res s k :
  rounds_to X res s -> (X <= Q2 k)%Q -> -1074 <= k < 1024 ->
  match res with
  | S754_zero _ => True
  | S754_finite _ m e => (inject_Z (Zpos m) * Q2 e <= Q2 k)%Q
  | _ => False
  end.
Proof.
  intros (D & m & Hlo & Hhi & Hm & _ & _ & Hup & _ & Hres) HX Hk.
  set (e' := Z.max (D - 53) (-1074)) in *.
  assert (HD : D - 1 <= k) by (apply Q2_le_inv; lra).
  assert (He : e' <= k) by lia.
  pose proof (Q2_pos e') as Pe.
  assert (Hz : m <= 2 ^ (k - e')).
  { apply Hup. rewrite <- (Q2_Z (k - e')) by lia.
    apply Qle_shift_div_r; [assumption|].
    rewrite <- Q2_add. replace (k - e' + e') with k by lia. assumption. }
  assert (Hv : (inject_Z m * Q2 e' <= Q2 k)%Q).
  { replace k with (k - e' + e') at 1 by lia. rewrite Q2_add.
    apply Qmult_le_compat_r; [| lra].
    rewrite (Q2_Z (k - e')) by lia. now apply inject_Z_pos_le. }
  destruct res as [s'|s'| |s' mr er]; auto.
  - destruct Hres as [_ Hinf].
    assert (Q2 k < Q2 1024)%Q by (apply Q2_lt; lia). lra.
  - destruct Hres as (_ & _ & ->). exact Hv.
Qed.

Lemma rounds_ge_pow2 X res s k :
  rounds_to X res s -> (Q2 k <= X)%Q -> -1074 <= k ->
  match res with
  | S754_finite _ m e => (Q2 k <= inject_Z (Zpos m) * Q2 e)%Q
  | S754_infinity _ => True
  | _ => False
  end.
Proof.
  intros (D & m & Hlo & Hhi & Hm & _ & _ & _ & Hdn & Hres) HX Hk.
  set (e' := Z.max (D - 53) (-1074)) in *.
  assert (HD : k < D) by (apply Q2_lt_inv; lra).
  pose proof (Q2_pos e') as Pe.
  assert (Hv : (Q2 k <= inject_Z m * Q2 e')%Q /\ 0 < m).
  { destruct (Z.le_gt_cases e' k) as [Hek|Hek].
    - assert (Hz : 2 ^ (k - e') <= m).
      { apply Hdn. rewrite <- (Q2_Z (k - e')) by lia.
        apply Qle_shift_div_l; [assumption|].
        rewrite <- Q2_add. replace (k - e' + e') with k by lia. assumption. }
      assert (0 < 2 ^ (k - e')) by (apply Z.pow_pos_nonneg; lia).
      split; [| lia].
      replace k with (k - e' + e') at 1 by lia. rewrite Q2_add.
      apply Qmult_le_compat_r; [| lra].
      rewrite (Q2_Z (k - e')) by lia. now apply inject_Z_pos_le.
    - assert (Hz : 2 ^ 52 <= m).
      { apply Hdn. rewrite <- (Q2_Z 52) by lia.
        apply Qle_shift_div_l; [assumption|].
        rewrite <- Q2_add. replace (52 + e') with (D - 1) by lia. assumption. }
      split; [| lia].
      assert (Q2 k <= Q2 e')%Q by (apply Q2_le; lia).
      assert (1 <= inject_Z m)%Q by (apply (inject_Z_pos_le 1); lia).
      nra. }
  destruct Hv as [Hv Hmp].
  destruct res as [s'|s'| |s' mr er]; auto.
  - destruct Hres as [_ ->]. lia.
  - destruct Hres as (_ & _ & ->). exact Hv.
Qed.

(** In the normal range the relative error is at most [2 ^ -53]. *)
Lemma rounds_rel_err X res s :
  rounds_to X res s -> (Q2 (-1022) <= X)%Q ->
  match res with
  | S754_finite _ m e =>
      (X * (1 - Q2 (-53)) <= inject_Z (Zpos m) * Q2 e)%Q /\
      (inject_Z (Zpos m) * Q2 e <= X * (1 + Q2 (-53)))%Q
  | S754_infinity _ => True
  | _ => False
  end.
Proof.
  intros (D & m & Hlo & Hhi & Hm & Hr1 & Hr2 & _ & Hdn & Hres) HX.
  assert (HD : -1022 < D) by (apply Q2_lt_inv; lra).
  replace (Z.max (D - 53) (-1074)) with (D - 53) in * by lia.
  pose proof (Q2_pos (D - 53)) as Pe.
  assert (Hz : 2 ^ 52 <= m).
  { apply Hdn. rewrite <- (Q2_Z 52) by lia.
    apply Qle_shift_div_l; [assumption|].
    rewrite <- Q2_add. replace (52 + (D - 53)) with (D - 1) by lia. assumption. }
  assert (Hu : (Q2 (D - 53) * (1 # 2) <= X * Q2 (-53))%Q).
  { assert (Q2 (D - 1) == Q2 (D - 53) * inject_Z (2 ^ 52))%Q as E.
    { rewrite <- (Q2_Z 52), <- Q2_add by lia. replace (D - 53 + 52) with (D - 1) by lia.
      reflexivity. }
    assert (Q2 (-53) * inject_Z (2 ^ 52) == 1 # 2)%Q as E2 by reflexivity.
    rewrite E in Hlo.
    apply Qmult_le_compat_r with (z := Q2 (-53)) in Hlo; [| apply Qlt_le_weak, Q2_pos].
    set (u := Q2 (-53)) in *. set (c := inject_Z (2 ^ 52)) in *. set (b := Q2 (D - 53)) in *.
    assert (b * c * u == b * (1 # 2))%Q as <- by (rewrite <- E2; ring).
    exact Hlo. }
  assert (Hv1 : (inject_Z m * Q2 (D - 53) - X <= Q2 (D - 53) * (1 # 2))%Q).
  { apply Qmult_le_compat_r with (z := Q2 (D - 53)) in Hr1; [| lra].
    rewrite <- (Qdiv_mul_cancel X (Q2 (D - 53)) Pe) at 1.
    set (y := (X / Q2 (D - 53))%Q) in *. lra. }
  assert (Hv2 : (X - inject_Z m * Q2 (D - 53) <= Q2 (D - 53) * (1 # 2))%Q).
  { apply Qmult_le_compat_r with (z := Q2 (D - 53)) in Hr2; [| lra].
    rewrite <- (Qdiv_mul_cancel X (Q2 (D - 53)) Pe) at 1.
    set (y := (X / Q2 (D - 53))%Q) in *. lra. }
  destruct res as [s'|s'| |s' mr er]; auto.
  - destruct Hres as [_ ->]. lia.
  - destruct Hres as (_ & _ & ->). split; lra.
Qed.

Lemma SFdiv_rounds s1 m1 e1 s2 m2 e2 X :
  (X == (inject_Z (Zpos m1) * Q2 e1) / (inject_Z (Zpos m2) * Q2 e2))%Q ->
  (Q2 (-1073) <= X)%Q ->
  rounds_to X (SFdiv prec emax (S754_finite s1 m1 e1) (S754_finite s2 m2 e2))
            (xorb s1 s2).
Proof.
  intros HX Hlow. unfold SFdiv.
  destruct (SFdiv_core_binary prec emax (Zpos m1) e1 (Zpos m2) e2)
    as [[q e] l] eqn:E.
  destruct (SFdiv_core_spec _ _ _ _ _ _ _ _ HX Hlow E) as (Hq & Hin & He).
  now apply binary_round_aux_rounds.
Qed.

Lemma Pos_iter_xO m d : Zpos (Pos.iter xO m d) = Zpos m * 2 ^ Zpos d.
Proof.
  induction d as [|d IH] using Pos.peano_ind.
  - simpl. lia.
  - rewrite Pos.iter_succ, Pos2Z.inj_xO, IH, Pos2Z.inj_succ, Z.pow_succ_r by lia. lia.
Qed.

Lemma binary_round_rounds s m e :
  rounds_to (inject_Z (Zpos m) * Q2 e) (binary_round prec emax s m e) s.
Proof.
  unfold binary_round, shl_align.
  set (d := Zpos (digits2_pos m)).
  pose proof (digits2_pos_bounds m) as [Hd1 Hd2]. fold d in Hd1, Hd2.
  assert (Hd0 : 0 < d) by (subst d; lia).
  remember (fexp prec emax (d + e)) as f eqn:Ef.
  destruct (f - e) as [|p|p] eqn:En.
  - apply binary_round_aux_rounds; [lia | | simpl Zdigits2; fold d; lia].
    simpl. pose proof (Q2_pos e). field. lra.
  - apply binary_round_aux_rounds; [lia | | simpl Zdigits2; fold d; lia].
    simpl. pose proof (Q2_pos e). field. lra.
  - assert (Em : Zpos (Pos.iter xO m p) = Zpos m * 2 ^ Zpos p) by apply Pos_iter_xO.
    assert (Ee : e = f + Zpos p) by lia.
    assert (Hdg : Zdigits2 (Zpos (Pos.iter xO m p)) = d + Zpos p).
    { apply Zdigits2_unique; [lia|]. rewrite Em.
      replace (d + Zpos p - 1) with (d - 1 + Zpos p) by lia.
      rewrite !Z.pow_add_r by lia.
      assert (0 < 2 ^ Zpos p) by (apply Z.pow_pos_nonneg; lia). nia. }
    apply binary_round_aux_rounds; [lia | |].
    + simpl. rewrite Em, inject_Z_mult, <- (Q2_Z (Zpos p)) by lia.
      rewrite Ee at 1. rewrite Q2_add.
      pose proof (Q2_pos f). field. lra.
    + rewrite Hdg. replace (d + Zpos p + f) with (d + e) by lia. lia.
Qed.

Lemma SFmag_pos m e : (0 < SFmag m e)%Q.
Proof.
  unfold SFmag. apply Qmult_lt_0_compat; [| apply Q2_pos].
  apply (inject_Z_pos_lt 0). lia.
Qed.

Lemma bounded_canonical m e :
  bounded prec emax m e = true -> canonical_mantissa prec emax m e = true.
Proof. unfold bounded. now intros [H _]%andb_prop. Qed.

Lemma bounded_lt_exp m1 e1 m2 e2 :
  bounded prec emax m1 e1 = true -> bounded prec emax m2 e2 = true ->
  e1 < e2 -> (SFmag m1 e1 < SFmag m2 e2)%Q.
Proof.
  intros H1%bounded_canonical H2%bounded_canonical He.
  destruct (canonical_bound _ _ H1) as [He1 Hm1].
  destruct (canonical_normal _ _ H2 ltac:(lia)) as [Hm2 _].
  unfold SFmag.
  apply inject_Z_pos_lt in Hm1. apply inject_Z_pos_le in Hm2.
  rewrite <- (Q2_Z 53) in Hm1 by lia. rewrite <- (Q2_Z 52) in Hm2 by lia.
  pose proof (Q2_pos e1) as P1. pose proof (Q2_pos e2) as P2.
  assert (inject_Z (Zpos m1) * Q2 e1 < Q2 53 * Q2 e1)%Q
    by (apply Qmult_lt_compat_r; assumption).
  assert (Q2 52 * Q2 e2 <= inject_Z (Zpos m2) * Q2 e2)%Q
    by (apply Qmult_le_compat_r; lra).
  assert (Q2 53 * Q2 e1 <= Q2 52 * Q2 e2)%Q
    by (rewrite <- !Q2_add; apply Q2_le; lia).
  lra.
Qed.

Lemma bounded_lt_max m e :
  bounded prec emax m e = true -> (SFmag m e < Q2 1024)%Q.
Proof.
  intros H. pose proof (bounded_canonical _ _ H) as Hc.
  destruct (canonical_bound _ _ Hc) as [_ Hm].
  unfold bounded in H. apply andb_prop in H as [_ He]. apply Z.leb_le in He.
  change (emax - prec) with 971 in He.
  unfold SFmag. apply inject_Z_pos_lt in Hm. rewrite <- (Q2_Z 53) in Hm by lia.
  pose proof (Q2_pos e) as P.
  assert (inject_Z (Zpos m) * Q2 e < Q2 53 * Q2 e)%Q
    by (apply Qmult_lt_compat_r; assumption).
  assert (Q2 53 * Q2 e <= Q2 1024)%Q by (rewrite <- Q2_add; apply Q2_le; lia).
  lra.
Qed.

Lemma SFmag_same_exp m1 m2 e :
  (SFmag m1 e < SFmag m2 e)%Q <-> (m1 < m2)%positive.
Proof.
  unfold SFmag. pose proof (Q2_pos e) as P. split; intros H.
  - apply Qmult_lt_r in H; [| assumption]. rewrite <- Zlt_Qlt in H. exact H.
  - apply Qmult_lt_r; [assumption|]. rewrite <- Zlt_Qlt. exact H.
Qed.

(** On positive doubles [<] is the order of the magnitudes. *)
Lemma SFltb_finite m1 e1 m2 e2 :
  bounded prec emax m1 e1 = true -> bounded prec emax m2 e2 = true ->
  SFltb (S754_finite false m1 e1) (S754_finite false m2 e2) = true <->
  (SFmag m1 e1 < SFmag m2 e2)%Q.
Proof.
  intros H1 H2. unfold SFltb, SFcompare.
  destruct (Z.compare_spec e1 e2) as [E|E|E].
  - subst e2. rewrite SFmag_same_exp.
    change (Pos.compare_cont Eq m1 m2) with (Pos.compare m1 m2).
    destruct (Pos.compare_spec m1 m2); split; intros; try easy; lia.
  - pose proof (bounded_lt_exp _ _ _ _ H1 H2 E). tauto.
  - pose proof (bounded_lt_exp _ _ _ _ H2 H1 E). split; [discriminate | lra].
Qed.

(** ** Primitive floats and their specification *)

Lemma Prim2SF_zero : Prim2SF 0 = S754_zero false.
Proof. reflexivity. Qed.

Lemma Prim2SF_infinity : Prim2SF infinity = S754_infinity false.
Proof. reflexivity. Qed.

Lemma SFcompare_refl x : x <> S754_nan -> SFcompare x x = Some Eq.
Proof.
  destruct x as [s|s| |s m e]; simpl; try congruence; intros _.
  - destruct s; reflexivity.
  - rewrite Z.compare_refl, Pos.compare_cont_refl. destruct s; reflexivity.
Qed.

Lemma is_nan_spec x :
  is_nan x = match Prim2SF x with S754_nan => true | _ => false end.
Proof.
  unfold is_nan. rewrite eqb_spec. unfold SFeqb.
  destruct (Prim2SF x) eqn:E; try reflexivity;
    rewrite SFcompare_refl by discriminate; reflexivity.
Qed.

Lemma is_infinity_spec x :
  is_infinity x = match Prim2SF x with S754_infinity _ => true | _ => false end.
Proof.
  unfold is_infinity. rewrite eqb_spec, abs_spec, Prim2SF_infinity.
  destruct (Prim2SF x) as [s|s| |s m e]; reflexivity.
Qed.

(** A positive double is finite or [+infinity]. *)
Lemma ltb_zero_pos x :
  (0 <? x)%float = true ->
  (exists m e, Prim2SF x = S754_finite false m e /\ bounded prec emax m e = true) \/
  Prim2SF x = S754_infinity false.
Proof.
  rewrite ltb_spec, Prim2SF_zero. pose proof (Prim2SF_valid x) as Hv.
  destruct (Prim2SF x) as [s|s| |s m e]; simpl; try discriminate.
  - destruct s; [discriminate | auto].
  - destruct s; [discriminate |]. left. eauto.
Qed.

Lemma leb_zero_nonneg x :
  (0 <=? x)%float = true ->
  match Prim2SF x with
  | S754_zero _ => True
  | S754_finite s _ _ | S754_infinity s => s = false
  | S754_nan => False
  end.
Proof.
  rewrite leb_spec, Prim2SF_zero.
  destruct (Prim2SF x) as [s|s| |s m e]; simpl; try discriminate; auto;
    destruct s; auto; discriminate.
Qed.

Lemma ltb_finite_pos x y mx ex :
  Prim2SF x = S754_finite false mx ex ->
  (x <? y)%float = true ->
  (exists my ey, Prim2SF y = S754_finite false my ey /\
                 bounded prec emax my ey = true /\
                 (SFmag mx ex < SFmag my ey)%Q) \/
  Prim2SF y = S754_infinity false.
Proof.
  intros Ex. rewrite ltb_spec, Ex.
  pose proof (Prim2SF_valid x) as Hvx. rewrite Ex in Hvx.
  pose proof (Prim2SF_valid y) as Hvy.
  destruct (Prim2SF y) as [s|s| |s my ey] eqn:Ey; try discriminate.
  - destruct s; [discriminate | auto].
  - destruct s; [discriminate|]. intros H. left. exists my, ey.
    repeat split; auto. now apply SFltb_finite.
Qed.

Lemma SF2Q_finite s m e q :
  SF2Q (S754_finite s m e) = Some q ->
  (q == if s then - SFmag m e else SFmag m e)%Q.
Proof.
  simpl. intros [= <-]. unfold SFmag.
  assert (Hz : (inject_Z (if s then Zneg m else Zpos m) ==
                if s then - inject_Z (Zpos m) else inject_Z (Zpos m))%Q).
  { destruct s; [| reflexivity]. change (Zneg m) with (- Zpos m).
    now rewrite inject_Z_opp. }
  set (z := if s then Zneg m else Zpos m) in *.
  assert (Hq : ((if s then - (inject_Z (Zpos m) * Q2 e) else inject_Z (Zpos m) * Q2 e)
                == inject_Z z * Q2 e)%Q).
  { rewrite Hz. destruct s; ring. }
  rewrite Hq. clear Hq Hz.
  destruct e as [|p|p].
  - change (Q2 0) with 1%Q. rewrite Z.mul_1_r. change (z # 1) with (inject_Z z). ring.
  - change (z * 2 ^ Zpos p # 1) with (inject_Z (z * 2 ^ Zpos p)).
    rewrite inject_Z_mult, <- (Q2_Z (Zpos p)) by lia. reflexivity.
  - rewrite Qmake_Qdiv, Pos2Z.inj_pow, <- (Q2_Z (Zpos p)) by lia.
    change (Zneg p) with (- Zpos p). unfold Q2 at 2. rewrite Qpower_opp. reflexivity.
Qed.

Lemma math_ceil_Qceiling x q :
  float_value x = Some q -> math_ceil x = Ok (Qceiling q).
Proof.
  unfold float_value, math_ceil.
  destruct (Prim2SF x) as [s|s| |s m e]; simpl; try discriminate.
  - intros [= <-]. reflexivity.
  - intros [= <-]. f_equal. destruct e as [|p|p]; unfold Qceiling, Qfloor; simpl Qopp;
      try reflexivity; unfold Qopp; cbv beta iota; simpl Qnum; simpl Qden;
      rewrite Z.div_1_r; lia.
Qed.

Lemma math_ceil_Ok x n :
  math_ceil x = Ok n -> exists q, float_value x = Some q /\ n = Qceiling q.
Proof.
  intros H.
  assert (Hq : exists q, float_value x = Some q).
  { unfold float_value, math_ceil in *.
    destruct (Prim2SF x); simpl; try discriminate; eauto. }
  destruct Hq as [q Hq]. exists q. split; [assumption|].
  rewrite (math_ceil_Qceiling _ _ Hq) in H. now injection H.
Qed.

Lemma float_div_rounds t i mt et mi ei :
  Prim2SF t = S754_finite false mt et ->
  Prim2SF i = S754_finite false mi ei ->
  (SFmag mi ei <= SFmag mt et)%Q ->
  rounds_to (SFmag mt et / SFmag mi ei) (Prim2SF (t / i)) false.
Proof.
  intros Et Ei Hle. rewrite div_spec, Et, Ei.
  change false with (xorb false false) at 3.
  apply SFdiv_rounds; [reflexivity|].
  pose proof (SFmag_pos mi ei) as Pi.
  assert (1 <= SFmag mt et / SFmag mi ei)%Q
    by (apply Qle_shift_div_l; lra).
  assert (Q2 (-1073) <= Q2 0)%Q by (apply Q2_le; lia).
  change (Q2 0) with 1%Q in *. lra.
Qed.

Lemma rounds_to_finite X s' m e s :
  rounds_to X (S754_finite s' m e) s -> s' = s /\ bounded prec emax m e = true.
Proof.
  intros (? & ? & ? & ? & ? & ? & ? & ? & ? & ? & ? & ?). auto.
Qed.


(** ** Conversions and true division of ints *)

Lemma binary_normalize_rounds p s :
  rounds_to (inject_Z (Zpos p)) (binary_round prec emax s p 0) s.
Proof.
  pose proof (binary_round_rounds s p 0) as H.
  change (Q2 0) with 1%Q in H.
  destruct H as (D & m & H1 & H2 & H). exists D, m.
  rewrite Qmult_1_r in H1, H2.
  split; [assumption|]. split; [assumption|].
  destruct H as (H3 & H4 & H5 & H6 & H7 & H8).
  split; [assumption|].
  assert (E : (inject_Z (Zpos p) * 1 == inject_Z (Zpos p))%Q) by ring.
  repeat split; try (intros z; rewrite <- E; auto); try (rewrite <- E; assumption).
  exact H8.
Qed.

Lemma int_to_float_Ok z :
  Z.abs z <= 2 ^ 1023 -> exists f, int_to_float z = Ok f.
Proof.
  intros Hz. unfold int_to_float, binary_normalize.
  destruct z as [|p|p]; [eauto | |].
  - pose proof (binary_normalize_rounds p false) as Hr.
    assert (Hle : (inject_Z (Zpos p) <= Q2 1023)%Q)
      by (rewrite (Q2_Z 1023) by lia; apply inject_Z_pos_le; lia).
    pose proof (rounds_le_pow2 _ _ _ 1023 Hr Hle ltac:(lia)) as Hc.
    destruct (binary_round prec emax false p 0); try contradiction; eauto.
  - pose proof (binary_normalize_rounds p true) as Hr.
    assert (Hle : (inject_Z (Zpos p) <= Q2 1023)%Q)
      by (rewrite (Q2_Z 1023) by lia; apply inject_Z_pos_le; lia).
    pose proof (rounds_le_pow2 _ _ _ 1023 Hr Hle ltac:(lia)) as Hc.
    destruct (binary_round prec emax true p 0); try contradiction; eauto.
Qed.

Lemma int_to_float_overflow z :
  2 ^ 1024 <= z -> int_to_float z = Raise OverflowError.
Proof.
  intros Hz. unfold int_to_float, binary_normalize.
  assert (0 < 2 ^ 1024) by (apply Z.pow_pos_nonneg; lia).
  destruct z as [|p|p]; try lia.
  pose proof (binary_normalize_rounds p false) as Hr.
  assert (Hle : (Q2 1024 <= inject_Z (Zpos p))%Q)
    by (rewrite (Q2_Z 1024) by lia; apply inject_Z_pos_le; lia).
  pose proof (rounds_ge_pow2 _ _ _ 1024 Hr Hle ltac:(lia)) as Hc.
  destruct (binary_round prec emax false p 0) as [s|s| |s m e];
    try contradiction; [reflexivity|].
  exfalso. destruct (rounds_to_finite _ _ _ _ _ Hr) as [_ Hb].
  pose proof (bounded_lt_max _ _ Hb). unfold SFmag in *. lra.
Qed.

(** The exact quotient [a / 60] of a positive int, rounded. *)
Lemma SFdiv_60_rounds (s : bool) (a : positive) :
  rounds_to (inject_Z (Zpos a) / 60)
            (SFdiv prec emax (S754_finite s a 0) (S754_finite false 60 0)) s.
Proof.
  replace s with (xorb s false) at 2 by (destruct s; reflexivity).
  apply SFdiv_rounds.
  - change (Q2 0) with 1%Q. change (inject_Z 60) with 60%Q. field.
  - assert (1 <= inject_Z (Zpos a))%Q by (apply (inject_Z_pos_le 1); lia).
    assert (Q2 (-1073) <= 1 # 60)%Q by (vm_compute; discriminate).
    assert (inject_Z (Zpos a) / 60 == inject_Z (Zpos a) * (1 # 60))%Q by field.
    lra.
Qed.

Lemma int_truediv_60_Ok a :
  Z.abs a <= 2 ^ 1020 -> exists f, int_truediv a 60 = Ok f.
Proof.
  intros Ha. unfold int_truediv.
  destruct a as [|p|p]; [eauto | |]; simpl Z.abs in *; simpl Z.to_pos;
    change (60 <? 0) with false; change (Z.to_pos 60) with 60%positive.
  - change (Zpos p <? 0) with false.
    pose proof (SFdiv_60_rounds false p) as Hr.
    assert (Hle : (inject_Z (Zpos p) / 60 <= Q2 1023)%Q).
    { assert (inject_Z (Zpos p) <= Q2 1020)%Q
        by (rewrite (Q2_Z 1020) by lia; apply inject_Z_pos_le; lia).
      assert (Q2 1020 <= Q2 1023)%Q by (apply Q2_le; lia).
      assert (0 < inject_Z (Zpos p))%Q by (apply (inject_Z_pos_lt 0); lia).
      assert (inject_Z (Zpos p) / 60 == inject_Z (Zpos p) * (1 # 60))%Q as -> by field.
      lra. }
    pose proof (rounds_le_pow2 _ _ _ 1023 Hr Hle ltac:(lia)) as Hc.
    destruct (SFdiv _ _ _ _); try contradiction; eauto.
  - change (Zneg p <? 0) with true.
    pose proof (SFdiv_60_rounds true p) as Hr.
    assert (Hle : (inject_Z (Zpos p) / 60 <= Q2 1023)%Q).
    { assert (inject_Z (Zpos p) <= Q2 1020)%Q
        by (rewrite (Q2_Z 1020) by lia; apply inject_Z_pos_le; lia).
      assert (Q2 1020 <= Q2 1023)%Q by (apply Q2_le; lia).
      assert (0 < inject_Z (Zpos p))%Q by (apply (inject_Z_pos_lt 0); lia).
      assert (inject_Z (Zpos p) / 60 == inject_Z (Zpos p) * (1 # 60))%Q as -> by field.
      lra. }
    pose proof (rounds_le_pow2 _ _ _ 1023 Hr Hle ltac:(lia)) as Hc.
    destruct (SFdiv _ _ _ _); try contradiction; eauto.
Qed.

Lemma int_truediv_60_pos a f :
  0 < a -> int_truediv a 60 = Ok f ->
  exists m e,
    Prim2SF f = S754_finite false m e /\ bounded prec emax m e = true /\
    (inject_Z a / 60 * (1 - Q2 (-53)) <= SFmag m e)%Q /\
    (SFmag m e <= inject_Z a / 60 * (1 + Q2 (-53)))%Q.
Proof.
  intros Ha. unfold int_truediv.
  destruct a as [|p|p]; try lia. simpl Z.abs; simpl Z.to_pos.
  change (60 <? 0) with false; change (Z.to_pos 60) with 60%positive.
  change (Zpos p <? 0) with false.
  pose proof (SFdiv_60_rounds false p) as Hr.
  assert (Hlo : (Q2 (-1022) <= inject_Z (Zpos p) / 60)%Q).
  { assert (1 <= inject_Z (Zpos p))%Q by (apply (inject_Z_pos_le 1); lia).
    assert (Q2 (-1022) <= 1 # 60)%Q by (vm_compute; discriminate).
    assert (inject_Z (Zpos p) / 60 == inject_Z (Zpos p) * (1 # 60))%Q as -> by field.
    lra. }
  pose proof (rounds_rel_err _ _ _ Hr Hlo) as He.
  destruct (SFdiv _ _ _ _) as [s|s| |s m e] eqn:E; try contradiction; try discriminate.
  intros [= <-]. destruct (rounds_to_finite _ _ _ _ _ Hr) as [-> Hb].
  exists m, e. split; [exact (Prim2SF_SF2Prim (S754_finite false m e) Hb)|].
  unfold SFmag. tauto.
Qed.

(** Division by 60 keeps two non-negative ints apart when their gap is
    large against [2 ^ -52] times their sum. *)
Lemma int_truediv_60_lt a1 a2 f1 f2 :
  0 <= a1 < a2 -> a1 + a2 <= 2 ^ 52 * (a2 - a1) ->
  int_truediv a1 60 = Ok f1 -> int_truediv a2 60 = Ok f2 ->
  (f1 <? f2)%float = true.
Proof.
  intros Ha Hgap H1 H2.
  destruct (int_truediv_60_pos a2 f2 ltac:(lia) H2) as (m2 & e2 & E2 & B2 & L2 & U2).
  rewrite ltb_spec, E2.
  destruct (Z.eq_dec a1 0) as [->|Hne].
  - injection H1 as <-. reflexivity.
  - destruct (int_truediv_60_pos a1 f1 ltac:(lia) H1) as (m1 & e1 & E1 & B1 & L1 & U1).
    rewrite E1. apply SFltb_finite; try assumption.
    apply inject_Z_pos_le in Hgap.
    rewrite inject_Z_mult, inject_Z_plus in Hgap.
    replace (a2 - a1) with (a2 + - a1) in Hgap by lia.
    rewrite inject_Z_plus, inject_Z_opp in Hgap.
    assert (Hlt : (inject_Z a1 < inject_Z a2)%Q) by (apply inject_Z_pos_lt; lia).
    assert (E1' : (inject_Z a1 / 60 == inject_Z a1 * (1 # 60))%Q) by field.
    assert (E2' : (inject_Z a2 / 60 == inject_Z a2 * (1 # 60))%Q) by field.
    rewrite E1' in *. rewrite E2' in *.
    change (Q2 (-53)) with (1 # 9007199254740992)%Q in *.
    change (inject_Z (2 ^ 52)) with (4503599627370496 # 1)%Q in Hgap.
    set (x1 := inject_Z a1) in *. set (x2 := inject_Z a2) in *.
    set (v1 := SFmag m1 e1) in *. set (v2 := SFmag m2 e2) in *.
    lra.
Qed.

(** ** The program, step by step *)

Lemma calcular_tras libm t i p l n :
  (i <=? 0)%float || (t <=? i)%float = false ->
  (i =? 0)%float = false ->
  math_log2 libm (t / i)%float = Ok l ->
  math_ceil l = Ok n ->
  calcular_tiempo_para_volumen libm t i p = tras_duplicaciones i p n.
Proof.
  intros Hg Hz Hl Hn. unfold calcular_tiempo_para_volumen, float_div.
  rewrite Hg, Hz. simpl. rewrite Hl. simpl. rewrite Hn. reflexivity.
Qed.

Lemma ltb_zero_eqb x : (0 <? x)%float = true -> (x =? 0)%float = false.
Proof.
  rewrite ltb_spec, eqb_spec. unfold SFltb, SFeqb.
  rewrite (SFcompare_antisym (Prim2SF 0) (Prim2SF x)).
  destruct (SFcompare (Prim2SF 0) (Prim2SF x)) as [[]|]; simpl; congruence.
Qed.

Lemma range_succ n : 0 <= n -> range (n + 1) = range n ++ [n].
Proof.
  intros Hn. unfold range.
  replace (Z.to_nat (n + 1)) with (S (Z.to_nat n)) by lia.
  rewrite seq_S, map_app. simpl. now rewrite Z2Nat.id.
Qed.


Lemma range_In n k : In k (range n) -> 0 <= k < n.
Proof.
  unfold range. rewrite in_map_iff. intros (j & <- & Hj%in_seq). lia.
Qed.

Lemma for_each_app {A S : Type} (xs ys : list A) (body : S -> A -> result S) s :
  for_each (xs ++ ys) body s = (s' <- for_each xs body s ;; for_each ys body s').
Proof.
  revert s. induction xs as [|x xs IH]; intros s; simpl; [reflexivity|].
  destruct (body s x); simpl; [apply IH | reflexivity].
Qed.

Lemma Forall2_nth_error_r {A B : Type} (R : A -> B -> Prop) xs ys :
  Forall2 R xs ys ->
  forall j y, nth_error ys j = Some y ->
              exists x, nth_error xs j = Some x /\ R x y.
Proof.
  induction 1 as [|x0 y0 xs ys HR HF IH]; intros [|j] y; simpl; try discriminate.
  - intros [= <-]. eauto.
  - apply IH.
Qed.

Lemma punto_de_Ok vi td k e v k' :
  punto_de vi td k = Ok (e, v, k') ->
  k' = k /\
  exists secs, int_mul_num k td = Ok secs /\
               num_truediv_int secs 60 = Ok e /\
               float_mul_int vi (2 ^ k) = Ok v.
Proof.
  unfold punto_de. intros H.
  bind_inv H. bind_inv H. bind_inv H. injection H as <- <- <-. eauto.
Qed.

(** The series of a returned result, point by point. *)
Lemma serie_Ok vi td n s :
  for_each (range (n + 1)) (paso vi td) [] = Ok s ->
  length s = Z.to_nat (n + 1) /\
  forall j pt, nth_error s j = Some pt -> punto_de vi td (Z.of_nat j) = Ok pt.
Proof.
  intros H. destruct (for_each_paso _ _ _ _ _ H) as (pts & -> & HF).
  simpl. split.
  - rewrite <- (Forall2_length HF). apply range_length.
  - intros j pt Hj.
    destruct (Forall2_nth_error_r _ _ _ HF _ _ Hj) as (k & Hk & Hpt).
    assert (Hlt : (j < Z.to_nat (n + 1))%nat).
    { rewrite <- range_length. apply nth_error_Some. congruence. }
    rewrite range_nth_error in Hk by assumption. now injection Hk as <-.
Qed.

(** Indices past 1023 cannot appear: [2 ** k] no longer converts. *)
Lemma float_mul_int_pow2 vi k v :
  0 <= k -> float_mul_int vi (2 ^ k) = Ok v -> k <= 1023.
Proof.
  intros Hk H. destruct (Z.le_gt_cases k 1023) as [|Hgt]; [assumption|].
  unfold float_mul_int in H.
  rewrite int_to_float_overflow in H; [discriminate|].
  apply Z.pow_le_mono_r; lia.
Qed.

(** The quotient of a non-degenerate input overflows to [+infinity] or is
    a finite positive double, the exact ratio rounded to nearest. *)
Lemma cociente_clases t i :
  (0 <? i)%float = true -> (i <? t)%float = true ->
  Prim2SF (t / i) = S754_infinity false \/
  exists mt et mi ei mr er,
    Prim2SF t = S754_finite false mt et /\
    Prim2SF i = S754_finite false mi ei /\
    Prim2SF (t / i) = S754_finite false mr er /\
    bounded prec emax mr er = true /\
    (SFmag mi ei < SFmag mt et)%Q /\
    rounds_to (SFmag mt et / SFmag mi ei) (S754_finite false mr er) false.
Proof.
  intros Hi Ht.
  destruct (ltb_zero_pos i Hi) as [(mi & ei & Ei & Bi)|Ei].
  2:{ rewrite ltb_spec, Ei in Ht. destruct (Prim2SF t) as [[]|[]| |[]]; discriminate. }
  destruct (ltb_finite_pos i t mi ei Ei Ht) as [(mt & et & Et & Bt & Hlt)|Et].
  2:{ left. rewrite div_spec, Et, Ei. reflexivity. }
  pose proof (float_div_rounds t i mt et mi ei Et Ei ltac:(lra)) as Hr.
  assert (H1 : (Q2 0 <= SFmag mt et / SFmag mi ei)%Q).
  { pose proof (SFmag_pos mi ei). change (Q2 0) with 1%Q.
    apply Qle_shift_div_l; lra. }
  pose proof (rounds_ge_pow2 _ _ _ 0 Hr H1 ltac:(lia)) as Hge.
  destruct (Prim2SF (t / i)) as [sr|sr| |sr mr er] eqn:Er; try contradiction.
  - left. destruct Hr as (? & ? & ? & ? & ? & ? & ? & ? & ? & -> & ?). reflexivity.
  - destruct (rounds_to_finite _ _ _ _ _ Hr) as [-> Hb].
    right. exists mt, et, mi, ei, mr, er. auto 10.
Qed.

Lemma float_value_finite x q :
  float_value x = Some q -> is_nan x = false /\ is_infinity x = false.
Proof.
  unfold float_value. rewrite is_nan_spec, is_infinity_spec.
  destruct (Prim2SF x); simpl; try discriminate; auto.
Qed.

Lemma math_log2_inf libm x :
  Prim2SF x = S754_infinity false -> math_log2 libm x = Ok x.
Proof.
  intros E. unfold math_log2.
  now rewrite is_nan_spec, is_infinity_spec, ltb_spec, Prim2SF_zero, E.
Qed.

Lemma math_log2_Ok_finite libm x m e l :
  Prim2SF x = S754_finite false m e -> math_log2 libm x = Ok l -> l = libm x.
Proof.
  intros E. unfold math_log2.
  rewrite is_nan_spec, is_infinity_spec, ltb_spec, Prim2SF_zero, E. simpl.
  destruct (is_nan (libm x) || is_infinity (libm x)); [discriminate|].
  now intros [= <-].
Qed.

Lemma math_log2_finite libm x m e ql :
  Prim2SF x = S754_finite false m e ->
  float_value (libm x) = Some ql ->
  math_log2 libm x = Ok (libm x).
Proof.
  intros E [Hn Hi]%float_value_finite. unfold math_log2.
  rewrite is_nan_spec, is_infinity_spec, ltb_spec, Prim2SF_zero, E. simpl.
  rewrite is_nan_spec, is_infinity_spec in *. now rewrite Hn, Hi.
Qed.

(** On a non-degenerate input for which the call returns, the volumes and
    their quotient are finite positive doubles, the quotient is the exact
    ratio rounded to nearest, and the count is the ceiling of the
    platform's logarithm of the quotient. *)
Lemma cociente_finito libm t i p m n s :
  (0 <? i)%float = true -> (i <? t)%float = true ->
  calcular_tiempo_para_volumen libm t i p = Ok (m, n, s) ->
  exists mt et mi ei mr er,
    Prim2SF t = S754_finite false mt et /\
    Prim2SF i = S754_finite false mi ei /\
    Prim2SF (t / i) = S754_finite false mr er /\
    bounded prec emax mr er = true /\
    (SFmag mi ei < SFmag mt et)%Q /\
    rounds_to (SFmag mt et / SFmag mi ei) (S754_finite false mr er) false /\
    math_ceil (libm (t / i)%float) = Ok n.
Proof.
  intros Hi Ht H.
  destruct (calcular_Ok _ _ _ _ _ _ _ (no_degenerado _ _ Hi Ht) H)
    as (l & secs & mins & Hl & Hc & _).
  destruct (cociente_clases t i Hi Ht)
    as [E | (mt & et & mi & ei & mr & er & Et & Ei & Er & Br & Hlt & Hr)].
  - rewrite (math_log2_inf _ _ E) in Hl. injection Hl as <-.
    unfold math_ceil in Hc. rewrite E in Hc. discriminate.
  - rewrite (math_log2_Ok_finite _ _ _ _ _ Er Hl) in Hc.
    exists mt, et, mi, ei, mr, er. auto 10.
Qed.

Lemma math_ceil_nonneg l n :
  (0 <=? l)%float = true -> math_ceil l = Ok n -> 0 <= n.
Proof.
  intros H%leb_zero_nonneg Hc.
  destruct (math_ceil_Ok _ _ Hc) as (q & Hq & ->).
  unfold float_value in Hq.
  assert (Hq0 : (0 <= q)%Q).
  { destruct (Prim2SF l) as [s|s| |s m e]; try discriminate.
    - injection Hq as <-. lra.
    - subst s. apply SF2Q_finite in Hq. pose proof (SFmag_pos m e). lra. }
  apply (Qceiling_resp_le 0 q Hq0).
Qed.

(** ** Results about [calcular_tiempo_para_volumen] *)

(** C2.  A degenerate input, one with [initialVolume <= 0] or
    [targetVolume <= initialVolume], returns exactly [(0, 0, [])], whatever
    the doubling period. *)
Theorem entrada_degenerada libm t i p :
  (i <=? 0)%float = true \/ (t <=? i)%float = true ->
  calcular_tiempo_para_volumen libm t i p = Ok (PyInt 0, 0, []).
Proof.
  intros H. unfold calcular_tiempo_para_volumen.
  destruct H as [-> | ->]; [reflexivity | now rewrite orb_true_r].
Qed.

Lemma entrada_degenerada_witness :
  calcular_tiempo_para_volumen log2_ref 5 10 TIEMPO_DUPLICACION = Ok (PyInt 0, 0, []).
Proof.
  apply (entrada_degenerada log2_ref 5 10 TIEMPO_DUPLICACION).
  right. reflexivity.
Defined.

(** C10.  On a non-degenerate input the returned series is not empty, and
    its last point carries the returned [totalMinutes] and
    [duplicationsNeeded].  The platform's logarithm is taken to be
    non-negative at the quotient. *)
Theorem ultimo_punto libm t i p m n s :
  (0 <? i)%float = true -> (i <? t)%float = true ->
  (0 <=? libm (t / i)%float)%float = true ->
  calcular_tiempo_para_volumen libm t i p = Ok (m, n, s) ->
  s <> [] /\
  exists minutos volumen,
    last s (0%float, 0%float, 0) = (minutos, volumen, n) /\
    m = PyFloat minutos.
Proof.
  intros Hi Ht Hl H.
  destruct (cociente_finito _ _ _ _ _ _ _ Hi Ht H) as (_ & _ & _ & _ & _ & _ & _ & _ & _ & _ & _ & _ & Hc).
  destruct (calcular_Ok _ _ _ _ _ _ _ (no_degenerado _ _ Hi Ht) H)
    as (_ & secs & mins & _ & _ & H1 & H2 & -> & Hs).
  pose proof (math_ceil_nonneg _ _ Hl Hc) as Hn.
  rewrite (range_succ n Hn), for_each_app in Hs.
  bind_inv Hs. simpl in Hs. bind_inv Hs. injection Hs as <-.
  unfold paso in E0. rewrite H1 in E0. simpl in E0.
  bind_inv E0. rewrite H2 in E0. simpl in E0. injection E0 as <-.
  split; [now destruct v|].
  exists mins, v1. now rewrite last_last.
Qed.

Lemma ultimo_punto_witness :
  serie_4_1 <> [] /\
  exists minutos volumen,
    last serie_4_1 (0%float, 0%float, 0) = (minutos, volumen, 2) /\
    PyFloat 10 = PyFloat minutos.
Proof.
  apply (ultimo_punto log2_ref 4 1 TIEMPO_DUPLICACION); vm_compute; reflexivity.
Defined.

(** C8.  A target of [0.00015 * 1024] from [0.00015] with a period of 300
    takes 10 duplications and 50.0 minutes; the series has 11 points and
    ends at 50.0 minutes with a volume of 0.1536.  The platform's
    logarithm of 1024 is taken to be 10. *)
Theorem escenario_dorayaki libm :
  libm 1024%float = 10%float ->
  exists s,
    calcular_tiempo_para_volumen libm (VOLUMEN_DORAYAKI * 1024) VOLUMEN_DORAYAKI
      TIEMPO_DUPLICACION = Ok (PyFloat 50, 10, s) /\
    length s = 11%nat /\
    last s (0%float, 0%float, 0) = (50%float, 0.1536%float, 10).
Proof.
  intros Hl.
  assert (Hq : (VOLUMEN_DORAYAKI * 1024 / VOLUMEN_DORAYAKI)%float = 1024%float)
    by reflexivity.
  erewrite calcular_tras with (l := 10%float) (n := 10);
    [| reflexivity | reflexivity | | reflexivity].
  - vm_compute. eexists. repeat split.
  - rewrite Hq. unfold math_log2.
    change (is_nan 1024) with false. change (0 <? 1024)%float with true.
    change (is_infinity 1024) with false. cbv iota zeta. now rewrite Hl.
Qed.

Lemma escenario_dorayaki_witness :
  exists s,
    calcular_tiempo_para_volumen log2_ref (VOLUMEN_DORAYAKI * 1024) VOLUMEN_DORAYAKI
      TIEMPO_DUPLICACION = Ok (PyFloat 50, 10, s) /\
    length s = 11%nat /\
    last s (0%float, 0%float, 0) = (50%float, 0.1536%float, 10).
Proof.
  apply (escenario_dorayaki log2_ref). vm_compute. reflexivity.
Defined.

(** C9.  A target of 100 from [0.0000001] with a period of 300 takes 30
    duplications and 150.0 minutes.  The platform's logarithm of the
    quotient is taken to lie above 29 and not above 30. *)
Theorem escenario_canica libm ql :
  float_value (libm (100 / VOLUMEN_CANICA)%float) = Some ql ->
  (29 < ql)%Q -> (ql <= 30)%Q ->
  exists s,
    calcular_tiempo_para_volumen libm 100 VOLUMEN_CANICA TIEMPO_DUPLICACION
    = Ok (PyFloat 150, 30, s).
Proof.
  intros Hv Hlo Hhi.
  assert (Hc : Qceiling ql = 30).
  { pose proof (Qle_ceiling ql) as H1. pose proof (Qceiling_lt ql) as H2.
    assert (29 < Qceiling ql) by (rewrite Zlt_Qlt; change (inject_Z 29) with 29%Q; lra).
    assert (Qceiling ql - 1 < 30) by (rewrite Zlt_Qlt; change (inject_Z 30) with 30%Q; lra).
    lia. }
  erewrite calcular_tras with (l := libm (100 / VOLUMEN_CANICA)%float) (n := 30);
    [| reflexivity | reflexivity | | ].
  - vm_compute. eexists. reflexivity.
  - eapply math_log2_finite; [vm_compute; reflexivity | exact Hv].
  - rewrite (math_ceil_Qceiling _ _ Hv), Hc. reflexivity.
Qed.

Lemma escenario_canica_witness :
  exists s,
    calcular_tiempo_para_volumen log2_ref 100 VOLUMEN_CANICA TIEMPO_DUPLICACION
    = Ok (PyFloat 150, 30, s).
Proof.
  eapply (escenario_canica log2_ref);
    [vm_compute; reflexivity | vm_compute; reflexivity | vm_compute; discriminate].
Defined.

Lemma float_div_int_Ok f d :
  d = 60 \/ d = 24 -> exists g, float_div_int f d = Ok g.
Proof.
  intros [-> | ->]; unfold float_div_int, float_div.
  - change (int_to_float 60) with (Ok 60%float). simpl.
    change (60 =? 0)%float with false. eauto.
  - change (int_to_float 24) with (Ok 24%float). simpl.
    change (24 =? 0)%float with false. eauto.
Qed.

Lemma tiempo_Ok p k :
  periodo_acotado p -> 0 <= k <= 1023 ->
  exists segundos minutos,
    int_mul_num k p = Ok segundos /\ num_truediv_int segundos 60 = Ok minutos.
Proof.
  intros Hp Hk. destruct p as [z|f]; simpl in *.
  - destruct (int_truediv_60_Ok (k * z)) as [g Hg]; [| eauto].
    rewrite Z.abs_mul.
    assert (Z.abs k * Z.abs z <= 2 ^ 20 * 2 ^ 1000); [| now rewrite <- Z.pow_add_r in * by lia].
    apply Z.mul_le_mono_nonneg; change (2 ^ 20) with 1048576; lia.
  - destruct (int_to_float_Ok k) as [fk Hfk].
    { assert (2 ^ 10 <= 2 ^ 1023) by (apply Z.pow_le_mono_r; lia).
      change (2 ^ 10) with 1024 in *. lia. }
    rewrite Hfk. simpl.
    destruct (float_div_int_Ok (fk * f) 60 ltac:(auto)) as [g Hg]. eauto.
Qed.

Lemma punto_de_total vi p k :
  periodo_acotado p -> 0 <= k <= 1023 -> exists pt, punto_de vi p k = Ok pt.
Proof.
  intros Hp Hk. unfold punto_de.
  destruct (tiempo_Ok p k Hp Hk) as (secs & mins & -> & H2). simpl.
  destruct (int_to_float_Ok (2 ^ k)) as [fk Hfk].
  { rewrite Z.abs_eq by (apply Z.pow_nonneg; lia). apply Z.pow_le_mono_r; lia. }
  unfold float_mul_int. rewrite Hfk. simpl. rewrite H2. simpl. eauto.
Qed.

Lemma bind_ret {A B : Type} (a : A) (k : A -> result B) : bind (Ok a) k = k a.
Proof. reflexivity. Qed.

Lemma tras_duplicaciones_total vi p n :
  periodo_acotado p -> 0 <= n <= 1023 ->
  exists m s, tras_duplicaciones vi p n = Ok (m, n, s).
Proof.
  intros Hp Hn. unfold tras_duplicaciones.
  destruct (tiempo_Ok p n Hp Hn) as (secs & mins & -> & H2).
  rewrite bind_ret, H2, bind_ret.
  destruct (float_div_int_Ok mins 60 ltac:(auto)) as [h ->]. rewrite bind_ret.
  destruct (float_div_int_Ok h 24 ltac:(auto)) as [d ->]. rewrite bind_ret.
  destruct (for_each_paso_total vi p (range (n + 1))) with (acc := @nil punto) as [s ->].
  { intros k Hk%range_In. apply punto_de_total; [assumption | lia]. }
  rewrite bind_ret. eauto.
Qed.

(** C6, amended.  The call returns a result, and raises nothing, on every
    degenerate input, and on every non-degenerate input whose quotient is
    finite and whose logarithm is a finite double with a ceiling from 0 to
    1023, the doubling period being a float or an int of at most 1000
    bits. *)
Theorem sin_excepcion libm t i p :
  entrada_segura libm t i p ->
  exists res, calcular_tiempo_para_volumen libm t i p = Ok res.
Proof.
  intros [Hg | (Hi & Ht & Hinf & Hp & ql & Hql & Hn)].
  - unfold calcular_tiempo_para_volumen. rewrite Hg. eauto.
  - destruct (cociente_clases t i Hi Ht) as [E | (mt & et & mi & ei & mr & er & _ & _ & Er & _)].
    { rewrite is_infinity_spec, E in Hinf. discriminate. }
    rewrite (calcular_tras libm t i p (libm (t / i)%float) (Qceiling ql)).
    + destruct (tras_duplicaciones_total i p (Qceiling ql) Hp Hn) as (m & s & ->). eauto.
    + now apply no_degenerado.
    + now apply ltb_zero_eqb.
    + eapply math_log2_finite; eassumption.
    + now apply math_ceil_Qceiling.
Qed.

Lemma sin_excepcion_witness :
  exists res, calcular_tiempo_para_volumen log2_ref 3 1 TIEMPO_DUPLICACION = Ok res.
Proof.
  apply (sin_excepcion log2_ref 3 1 TIEMPO_DUPLICACION).
  right. repeat split; try (vm_compute; reflexivity).
  - vm_compute. discriminate.
  - eexists. split; [vm_compute; reflexivity|]. vm_compute. split; discriminate.
Defined.

(** X1.  Whatever the platform's logarithm and the period, a
    non-degenerate input whose quotient overflows raises OverflowError,
    from [math.ceil]. *)
Lemma cociente_desbordado libm t i p :
  (0 <? i)%float = true -> (i <? t)%float = true ->
  is_infinity (t / i) = true ->
  calcular_tiempo_para_volumen libm t i p = Raise OverflowError.
Proof.
  intros Hi Ht Hinf.
  destruct (cociente_clases t i Hi Ht) as [E | (mt & et & mi & ei & mr & er & _ & _ & Er & _)].
  2:{ rewrite is_infinity_spec, Er in Hinf. discriminate. }
  unfold calcular_tiempo_para_volumen, float_div.
  rewrite (no_degenerado _ _ Hi Ht), (ltb_zero_eqb _ Hi), bind_ret.
  rewrite (math_log2_inf _ _ E), bind_ret.
  unfold math_ceil. rewrite E. reflexivity.
Qed.

(** C6 as stated fails: a quotient that overflows raises OverflowError. *)
Lemma excepcion_por_desbordamiento :
  calcular_tiempo_para_volumen log2_ref 1e300 1e-300 TIEMPO_DUPLICACION
  = Raise OverflowError.
Proof. vm_compute. reflexivity. Qed.

(** C5 as stated fails: with the smallest positive float as the period,
    every elapsed time underflows to zero. *)
Lemma serie_no_creciente :
  (0 <? 5e-324)%float = true /\
  calcular_tiempo_para_volumen log2_ref 4 1 (PyFloat 5e-324)
  = Ok (PyFloat 0, 2,
        [(0%float, 1%float, 0); (0%float, 2%float, 1); (0%float, 4%float, 2)]) /\
  (0 <? 0)%float = false.
Proof. vm_compute. auto. Qed.

(** C1 as stated fails: for a target one unit in the last place above 16
    the logarithm rounds to 4, and four duplications of 1 give 16, which is
    below the target. *)
Lemma duplicaciones_no_minimas :
  (0 <? 1)%float = true /\ (1 <? 16.000000000000004)%float = true /\
  calcular_tiempo_para_volumen log2_ref 16.000000000000004 1 TIEMPO_DUPLICACION
  = Ok (PyFloat 20, 4,
        [(0%float, 1%float, 0); (5%float, 2%float, 1); (10%float, 4%float, 2);
         (15%float, 8%float, 3); (20%float, 16%float, 4)]) /\
  float_mul_int 1 (2 ^ 4) = Ok 16%float /\
  (16 <? 16.000000000000004)%float = true.
Proof. vm_compute. auto 10. Qed.
(** C1, amended.  On a non-degenerate input for which the call returns,
    the count [n] is the ceiling of the platform's logarithm of the
    double-precision quotient; when that logarithm brackets the quotient
    ([log2_brackets]), [initialVolume * 2 ^ (n - 1) < targetVolume] for
    [n > 0] and [targetVolume < initialVolume * 2 ^ (n + 1)] in exact
    arithmetic, so [n] is the minimum or one less; and [n] is the minimum
    whenever the logarithm is not an integer. *)
Theorem duplicaciones_casi_minimas libm t i p m n s :
  (0 <? i)%float = true -> (i <? t)%float = true ->
  log2_brackets (t / i) (libm (t / i)%float) ->
  calcular_tiempo_para_volumen libm t i p = Ok (m, n, s) ->
  exists qt qi ql,
    float_value t = Some qt /\ float_value i = Some qi /\
    float_value (libm (t / i)%float) = Some ql /\
    n = Qceiling ql /\ 0 <= n /\
    (0 < n -> (qi * Q2 (n - 1) < qt)%Q) /\
    (qt < qi * Q2 (n + 1))%Q /\
    ((ql < inject_Z n)%Q -> (qt < qi * Q2 n)%Q).
Proof.
  intros Hi Ht Hb H.
  destruct (cociente_finito _ _ _ _ _ _ _ Hi Ht H)
    as (mt & et & mi & ei & mr & er & Et & Ei & Er & Br & Hlt & Hr & Hc).
  destruct (math_ceil_Ok _ _ Hc) as (ql & Hql & Hn).
  unfold log2_brackets in Hb. rewrite Hql in Hb.
  unfold float_value in *. rewrite Er in Hb. rewrite Et, Ei.
  destruct (SF2Q (S754_finite false mr er)) as [qr|] eqn:Eqr; [| contradiction].
  destruct Hb as [Hb1 Hb2].
  pose proof (SF2Q_finite _ _ _ _ Eqr) as Vr. simpl in Vr.
  destruct (SF2Q (S754_finite false mt et)) as [qt|] eqn:Eqt; [| discriminate].
  destruct (SF2Q (S754_finite false mi ei)) as [qi|] eqn:Eqi; [| discriminate].
  pose proof (SF2Q_finite _ _ _ _ Eqt) as Vt. simpl in Vt.
  pose proof (SF2Q_finite _ _ _ _ Eqi) as Vi. simpl in Vi.
  exists qt, qi, ql. do 2 (split; [reflexivity|]). split; [exact Hql|].
  split; [exact Hn|].
  pose proof (SFmag_pos mi ei) as Pi.
  set (X := (SFmag mt et / SFmag mi ei)%Q) in *.
  assert (HX : (X * SFmag mi ei == SFmag mt et)%Q)
    by (subst X; apply Qdiv_mul_cancel; assumption).
  (* the quotient is at least one *)
  assert (H1 : (Q2 0 <= X)%Q).
  { subst X. change (Q2 0) with 1%Q. apply Qle_shift_div_l; lra. }
  pose proof (rounds_ge_pow2 _ _ _ 0 Hr H1 ltac:(lia)) as Hge. simpl in Hge.
  fold (SFmag mr er) in Hge.
  pose proof (bounded_lt_max _ _ Br) as Hmax.
  pose proof (Qle_floor_ceiling ql) as Hfc. rewrite <- Hn in *.
  rewrite <- Zle_Qle in Hfc.
  assert (Hn0 : 0 <= n).
  { assert (Q2 0 < Q2 (Qfloor ql + 1))%Q as Hlt0 by (change (Q2 0) with 1%Q; lra).
    apply Q2_lt_inv in Hlt0. lia. }
  assert (Hn1 : n - 1 < 1024).
  { apply Q2_lt_inv. lra. }
  (* transfer of the thresholds from the rounded to the exact quotient *)
  assert (Hlow : forall k, 0 <= k < 1024 -> (Q2 k < qr)%Q -> (Q2 k < X)%Q).
  { intros k Hk Hq. destruct (Qlt_le_dec (Q2 k) X) as [|Hle]; [assumption|].
    pose proof (rounds_le_pow2 _ _ _ k Hr Hle ltac:(lia)) as Hc'. simpl in Hc'.
    fold (SFmag mr er) in Hc'. lra. }
  assert (Hupp : forall k, 0 <= k -> (qr < Q2 k)%Q -> (X < Q2 k)%Q).
  { intros k Hk Hq. destruct (Qlt_le_dec X (Q2 k)) as [|Hle]; [assumption|].
    pose proof (rounds_ge_pow2 _ _ _ k Hr Hle ltac:(lia)) as Hc'. simpl in Hc'.
    fold (SFmag mr er) in Hc'. lra. }
  assert (Hmul : forall c, (c < X)%Q -> (qi * c < qt)%Q).
  { intros c Hcx. rewrite Vt, Vi, <- HX.
    rewrite (Qmult_comm (SFmag mi ei) c). apply Qmult_lt_compat_r; assumption. }
  assert (Hmul' : forall c, (X < c)%Q -> (qt < qi * c)%Q).
  { intros c Hcx. rewrite Vt, Vi, <- HX.
    rewrite (Qmult_comm (SFmag mi ei) c). apply Qmult_lt_compat_r; assumption. }
  split; [assumption|]. split; [| split].
  - intros Hpos. apply Hmul, Hlow; [lia | assumption].
  - apply Hmul', Hupp; [lia|].
    assert (Q2 (Qfloor ql + 1) <= Q2 (n + 1))%Q by (apply Q2_le; lia). lra.
  - intros Hlt'. apply Hmul', Hupp; [lia|].
    assert (Qfloor ql + 1 <= n).
    { assert (Qfloor ql < n); [| lia].
      rewrite Zlt_Qlt. pose proof (Qfloor_le ql). lra. }
    assert (Q2 (Qfloor ql + 1) <= Q2 n)%Q by (apply Q2_le; lia). lra.
Qed.


Lemma duplicaciones_casi_minimas_witness :
  exists qt qi ql,
    float_value 3 = Some qt /\ float_value 1 = Some qi /\
    float_value (log2_ref (3 / 1)%float) = Some ql /\
    2 = Qceiling ql /\ 0 <= 2 /\
    (0 < 2 -> (qi * Q2 (2 - 1) < qt)%Q) /\
    (qt < qi * Q2 (2 + 1))%Q /\
    ((ql < inject_Z 2)%Q -> (qt < qi * Q2 2)%Q).
Proof.
  apply (duplicaciones_casi_minimas log2_ref 3 1 TIEMPO_DUPLICACION (PyFloat 10) 2 serie_4_1);
    vm_compute; auto.
Defined.

(** ** Exact results *)

(** A value with a mantissa of at most 53 bits at an exponent in range is
    left unchanged by the rounding, unless it overflows. *)
Lemma rounds_exact X res s z e :
  rounds_to X res s ->
  (X == inject_Z z * Q2 e)%Q -> 0 < z < 2 ^ 53 -> -1074 <= e ->
  match res with
  | S754_finite _ m' e' => (SFmag m' e' == X)%Q
  | S754_infinity _ => (Q2 1024 <= X)%Q
  | _ => False
  end.
Proof.
  intros (D & m & Hlo & Hhi & Hm & _ & _ & Hup & Hdn & Hres) HX Hz He.
  set (e' := Z.max (D - 53) (-1074)) in *.
  pose proof (Q2_pos e) as Pe. pose proof (Q2_pos e') as Pe'.
  assert (Hzq : (inject_Z z < Q2 53)%Q)
    by (rewrite (Q2_Z 53) by lia; apply inject_Z_pos_lt; lia).
  assert (HD : D - 1 < e + 53).
  { apply Q2_lt_inv. rewrite Q2_add.
    assert (inject_Z z * Q2 e < Q2 53 * Q2 e)%Q by (apply Qmult_lt_compat_r; assumption).
    rewrite (Qmult_comm (Q2 e) (Q2 53)). lra. }
  assert (Hee : e' <= e) by lia.
  assert (Hx : (X / Q2 e' == inject_Z (z * 2 ^ (e - e')))%Q).
  { rewrite inject_Z_mult, <- (Q2_Z (e - e')) by lia. rewrite HX.
    replace e with (e - e' + e') at 1 by lia. rewrite Q2_add. field. lra. }
  assert (Em : m = z * 2 ^ (e - e')).
  { apply Z.le_antisymm; [apply Hup | apply Hdn]; rewrite Hx; apply Qle_refl. }
  assert (Hv : (inject_Z m * Q2 e' == X)%Q).
  { rewrite Em, <- Hx. field. lra. }
  assert (Hmp : 0 < m).
  { rewrite Em. apply Z.mul_pos_pos; [lia | apply Z.pow_pos_nonneg; lia]. }
  destruct res as [s'|s'| |s' mr er].
  - destruct Hres as [_ ->]. lia.
  - destruct Hres as [_ H]. now rewrite <- Hv.
  - assumption.
  - destruct Hres as (_ & _ & H). unfold SFmag. now rewrite H.
Qed.

(** [float(2 ** k)] is the double [2 ^ k]. *)
Lemma int_to_float_pow2 k f :
  0 <= k -> int_to_float (2 ^ k) = Ok f ->
  exists m e, Prim2SF f = S754_finite false m e /\ bounded prec emax m e = true /\
              -1074 < e /\ (SFmag m e == Q2 k)%Q.
Proof.
  intros Hk. unfold int_to_float, binary_normalize.
  assert (Hp : 0 < 2 ^ k) by (apply Z.pow_pos_nonneg; lia).
  destruct (2 ^ k) as [|p|p] eqn:Ep; try lia.
  pose proof (binary_normalize_rounds p false) as Hr.
  assert (HX : (inject_Z (Zpos p) == inject_Z 1 * Q2 k)%Q).
  { rewrite <- Ep, (Q2_Z k) by lia. change (inject_Z 1) with 1%Q. ring. }
  pose proof (rounds_exact _ _ _ 1 k Hr HX ltac:(lia) ltac:(lia)) as Hex.
  destruct (binary_round prec emax false p 0) as [s|s| |s m e] eqn:E;
    try contradiction; try discriminate.
  intros H. injection H as <-.
  destruct (rounds_to_finite _ _ _ _ _ Hr) as [-> Hb].
  exists m, e. split; [exact (Prim2SF_SF2Prim (S754_finite false m e) Hb)|].
  split; [assumption|].
  assert (Hv : (SFmag m e == Q2 k)%Q).
  { rewrite Hex, HX. change (inject_Z 1) with 1%Q. ring. }
  split; [| exact Hv].
  destruct (Z.le_gt_cases e (-1074)) as [Hle|]; [| assumption]. exfalso.
  destruct (canonical_bound _ _ (bounded_canonical _ _ Hb)) as [_ Hm].
  apply inject_Z_pos_lt in Hm. rewrite <- (Q2_Z 53) in Hm by lia.
  pose proof (Q2_pos e) as Pe.
  assert (inject_Z (Zpos m) * Q2 e < Q2 53 * Q2 e)%Q by (apply Qmult_lt_compat_r; assumption).
  assert (Q2 53 * Q2 e <= Q2 0)%Q by (rewrite <- Q2_add; apply Q2_le; lia).
  assert (Q2 0 <= Q2 k)%Q by (apply Q2_le; lia).
  unfold SFmag in Hv. lra.
Qed.

(** The product of a finite double and a normal one is their exact product,
    rounded. *)
Lemma SFmul_rounds s1 m1 e1 s2 m2 e2 :
  bounded prec emax m2 e2 = true -> -1074 < e2 ->
  rounds_to (SFmag m1 e1 * SFmag m2 e2)
            (SFmul prec emax (S754_finite s1 m1 e1) (S754_finite s2 m2 e2))
            (xorb s1 s2).
Proof.
  intros Hb He. unfold SFmul.
  destruct (canonical_normal _ _ (bounded_canonical _ _ Hb) He) as [Hm2 _].
  assert (Hprod : 2 ^ 52 <= Zpos (m1 * m2)) by (rewrite Pos2Z.inj_mul; nia).
  apply binary_round_aux_rounds; [lia | |].
  - simpl. unfold SFmag. rewrite Pos2Z.inj_mul, inject_Z_mult, Q2_add.
    pose proof (Q2_pos e1). pose proof (Q2_pos e2). field. lra.
  - pose proof (Zdigits2_bounds (Zpos (m1 * m2)) ltac:(lia)) as [_ Hd].
    assert (52 < Zdigits2 (Zpos (m1 * m2))).
    { apply (Z.pow_lt_mono_r_iff 2); [lia | | lia].
      apply Z.lt_le_incl, Zdigits2_pos. lia. }
    rewrite fexp_eq. lia.
Qed.

(** [x * 2 ** k] on a positive finite double [x]: the exact product, or
    [+infinity] when that is [2 ^ 1024] or more. *)
Lemma float_mul_int_pow2_exact i k v mi ei :
  Prim2SF i = S754_finite false mi ei -> 0 <= k ->
  float_mul_int i (2 ^ k) = Ok v ->
  (exists m e, Prim2SF v = S754_finite false m e /\ bounded prec emax m e = true /\
               (SFmag m e == SFmag mi ei * Q2 k)%Q) \/
  (Prim2SF v = S754_infinity false /\ (Q2 1024 <= SFmag mi ei * Q2 k)%Q).
Proof.
  intros Ei Hk H. unfold float_mul_int in H. bind_inv H. injection H as <-.
  destruct (int_to_float_pow2 _ _ Hk E) as (mf & ef & Ef & Bf & Hef & Vf).
  pose proof (Prim2SF_valid i) as Bi. rewrite Ei in Bi. simpl in Bi.
  destruct (canonical_bound _ _ (bounded_canonical _ _ Bi)) as [Hei Hmi].
  pose proof (SFmul_rounds false mi ei false mf ef Bf Hef) as Hr.
  assert (HX : (SFmag mi ei * SFmag mf ef == inject_Z (Zpos mi) * Q2 (ei + k))%Q).
  { rewrite Vf, Q2_add. unfold SFmag. ring. }
  pose proof (rounds_exact _ _ _ _ _ Hr HX ltac:(lia) ltac:(lia)) as Hex.
  rewrite mul_spec, Ei, Ef.
  change (SF64mul (S754_finite false mi ei) (S754_finite false mf ef))
    with (SFmul prec emax (S754_finite false mi ei) (S754_finite false mf ef)).
  destruct (SFmul prec emax _ _) as [s|s| |s m e] eqn:Em; try contradiction.
  - right. assert (s = false) as ->.
    { destruct Hr as (? & ? & ? & ? & ? & ? & ? & ? & ? & -> & ?). reflexivity. }
    split; [reflexivity|]. now rewrite <- Vf.
  - left. destruct (rounds_to_finite _ _ _ _ _ Hr) as [-> Hb].
    exists m, e. repeat split; auto. now rewrite Hex, Vf.
Qed.

Lemma inicial_finito t i :
  (0 <? i)%float = true -> (i <? t)%float = true ->
  exists mi ei, Prim2SF i = S754_finite false mi ei.
Proof.
  intros Hi Ht.
  destruct (cociente_clases t i Hi Ht) as [E | (mt & et & mi & ei & mr & er & _ & Ei & _)];
    [| eauto].
  destruct (ltb_zero_pos i Hi) as [(mi & ei & Ei & _)|Ei]; [eauto|].
  rewrite ltb_spec, Ei in Ht. destruct (Prim2SF t) as [[]|[]| |[]]; discriminate.
Qed.

Lemma Prim2SF_infinity_inv v : Prim2SF v = S754_infinity false -> v = infinity.
Proof.
  intros E. rewrite <- (SF2Prim_Prim2SF v), E. reflexivity.
Qed.

Lemma float_value_finite_pos v m e :
  Prim2SF v = S754_finite false m e ->
  exists q, float_value v = Some q /\ (q == SFmag m e)%Q.
Proof.
  intros E. unfold float_value. rewrite E.
  destruct (SF2Q (S754_finite false m e)) as [q|] eqn:Eq; [| discriminate].
  exists q. split; [reflexivity|]. exact (SF2Q_finite _ _ _ _ Eq).
Qed.

(** What every point of a returned series of a non-degenerate call is. *)
Lemma punto_de_serie libm t i p m n s j e v k :
  (i <=? 0)%float || (t <=? i)%float = false ->
  calcular_tiempo_para_volumen libm t i p = Ok (m, n, s) ->
  nth_error s j = Some (e, v, k) ->
  k = Z.of_nat j /\ k <= n /\
  exists secs, int_mul_num k p = Ok secs /\
               num_truediv_int secs 60 = Ok e /\
               float_mul_int i (2 ^ k) = Ok v.
Proof.
  intros Hg H Hj.
  destruct (calcular_Ok _ _ _ _ _ _ _ Hg H) as (_ & _ & _ & _ & _ & _ & _ & _ & Hs).
  destruct (serie_Ok _ _ _ _ Hs) as [Hlen Hpt].
  destruct (punto_de_Ok _ _ _ _ _ _ (Hpt _ _ Hj)) as (-> & Hrest).
  assert (j < length s)%nat by (apply nth_error_Some; congruence).
  repeat split; [lia | exact Hrest].
Qed.

(** X2.  The volumes of the series carry no rounding error: the point of
    index [k] holds exactly [initialVolume * 2 ^ k], or [+infinity] once
    that reaches [2 ^ 1024]. *)
Theorem volumenes_exactos libm t i p m n s :
  (0 <? i)%float = true -> (i <? t)%float = true ->
  calcular_tiempo_para_volumen libm t i p = Ok (m, n, s) ->
  forall j e v k, nth_error s j = Some (e, v, k) ->
    exists qi, float_value i = Some qi /\
      ((exists qv, float_value v = Some qv /\ (qv == qi * Q2 k)%Q) \/
       (v = infinity /\ (Q2 1024 <= qi * Q2 k)%Q)).
Proof.
  intros Hi Ht H j e v k Hj.
  destruct (inicial_finito t i Hi Ht) as (mi & ei & Ei).
  destruct (float_value_finite_pos _ _ _ Ei) as (qi & Hqi & Vi).
  destruct (punto_de_serie _ _ _ _ _ _ _ _ _ _ _ (no_degenerado _ _ Hi Ht) H Hj)
    as (Hk & _ & secs & _ & _ & Hv).
  exists qi. split; [assumption|].
  destruct (float_mul_int_pow2_exact i k v mi ei Ei ltac:(lia) Hv)
    as [(mv & ev & Ev & _ & Vv) | (Ev & Hov)].
  - left. destruct (float_value_finite_pos _ _ _ Ev) as (qv & Hqv & Vq).
    exists qv. split; [assumption|]. now rewrite Vq, Vv, Vi.
  - right. split; [now apply Prim2SF_infinity_inv | now rewrite Vi].
Qed.

Lemma volumenes_exactos_witness :
  exists qi, float_value 1 = Some qi /\
    ((exists qv, float_value 4 = Some qv /\ (qv == qi * Q2 2)%Q) \/
     (4%float = infinity /\ (Q2 1024 <= qi * Q2 2)%Q)).
Proof.
  assert (H : calcular_tiempo_para_volumen log2_ref 4 1 TIEMPO_DUPLICACION
              = Ok (PyFloat 10, 2, serie_4_1)) by (vm_compute; reflexivity).
  apply (volumenes_exactos log2_ref 4 1 TIEMPO_DUPLICACION (PyFloat 10) 2 serie_4_1
           eq_refl eq_refl H 2%nat 10%float 4%float 2 eq_refl).
Defined.

(** X3.  The volumes of a returned series grow strictly until they
    overflow, and stay at [+infinity] afterwards. *)
Theorem volumenes_crecientes libm t i p m n s :
  (0 <? i)%float = true -> (i <? t)%float = true ->
  calcular_tiempo_para_volumen libm t i p = Ok (m, n, s) ->
  forall j1 j2 e1 v1 k1 e2 v2 k2,
    (j1 < j2)%nat ->
    nth_error s j1 = Some (e1, v1, k1) ->
    nth_error s j2 = Some (e2, v2, k2) ->
    (v1 <? v2)%float = true \/ v2 = infinity.
Proof.
  intros Hi Ht H j1 j2 e1 v1 k1 e2 v2 k2 Hj H1 H2.
  destruct (inicial_finito t i Hi Ht) as (mi & ei & Ei).
  pose proof (no_degenerado _ _ Hi Ht) as Hg.
  destruct (punto_de_serie _ _ _ _ _ _ _ _ _ _ _ Hg H H1) as (Hk1 & _ & _ & _ & _ & Hv1).
  destruct (punto_de_serie _ _ _ _ _ _ _ _ _ _ _ Hg H H2) as (Hk2 & _ & _ & _ & _ & Hv2).
  destruct (float_mul_int_pow2_exact i k2 v2 mi ei Ei ltac:(lia) Hv2)
    as [(m2 & x2 & E2 & B2 & V2) | (E2 & _)].
  2:{ right. now apply Prim2SF_infinity_inv. }
  left. pose proof (SFmag_pos mi ei) as Pi.
  assert (Hlt : (SFmag mi ei * Q2 k1 < SFmag mi ei * Q2 k2)%Q).
  { rewrite !(Qmult_comm (SFmag mi ei)). apply Qmult_lt_compat_r; [assumption|].
    apply Q2_lt. lia. }
  pose proof (bounded_lt_max _ _ B2) as Hmax.
  destruct (float_mul_int_pow2_exact i k1 v1 mi ei Ei ltac:(lia) Hv1)
    as [(m1 & x1 & E1 & B1 & V1) | (E1 & Hov)].
  - rewrite ltb_spec, E1, E2. apply SFltb_finite; try assumption. lra.
  - lra.
Qed.

Lemma volumenes_crecientes_witness :
  (2 <? 4)%float = true \/ 4%float = infinity.
Proof.
  assert (H : calcular_tiempo_para_volumen log2_ref 4 1 TIEMPO_DUPLICACION
              = Ok (PyFloat 10, 2, serie_4_1)) by (vm_compute; reflexivity).
  apply (volumenes_crecientes log2_ref 4 1 TIEMPO_DUPLICACION (PyFloat 10) 2 serie_4_1
           eq_refl eq_refl H 1%nat 2%nat 5%float 2%float 1 10%float 4%float 2);
    [lia | reflexivity | reflexivity].
Defined.

(** A series that is returned has at most 1024 points: a longer one fails
    in [float(2 ** n)]. *)
Lemma serie_cota vi p n s :
  for_each (range (n + 1)) (paso vi p) [] = Ok s -> n <= 1023.
Proof.
  intros Hs. destruct (serie_Ok _ _ _ _ Hs) as [Hlen Hpt].
  destruct (Z.le_gt_cases n 1023) as [|Hgt]; [assumption|]. exfalso.
  destruct (nth_error s (Z.to_nat n)) as [[[e v] k]|] eqn:E.
  - destruct (punto_de_Ok _ _ _ _ _ _ (Hpt _ _ E)) as (_ & _ & _ & _ & Hv).
    rewrite Z2Nat.id in Hv by lia.
    assert (n <= 1023) by (apply (float_mul_int_pow2 vi n v); [lia | exact Hv]).
    lia.
  - apply nth_error_None in E. lia.
Qed.

(** X4.  With float volumes a returned result never has more than 1023
    duplications, nor a series of more than 1024 points: a larger count
    fails in [float(2 ** n)], to which line 46 converts the power for a
    float initial volume. *)
Theorem cota_duplicaciones libm t i p m n s :
  calcular_tiempo_para_volumen libm t i p = Ok (m, n, s) ->
  n <= 1023 /\ (length s <= 1024)%nat.
Proof.
  intros H.
  destruct ((i <=? 0)%float || (t <=? i)%float) eqn:Hg.
  { unfold calcular_tiempo_para_volumen in H. rewrite Hg in H.
    injection H as <- <- <-. simpl. lia. }
  destruct (calcular_Ok _ _ _ _ _ _ _ Hg H) as (_ & _ & _ & _ & _ & _ & _ & _ & Hs).
  pose proof (serie_cota _ _ _ _ Hs) as Hn.
  destruct (serie_Ok _ _ _ _ Hs) as [Hlen _].
  split; [assumption | lia].
Qed.

Lemma cota_duplicaciones_witness : 2 <= 1023 /\ (length serie_4_1 <= 1024)%nat.
Proof.
  apply (cota_duplicaciones log2_ref 4 1 TIEMPO_DUPLICACION (PyFloat 10)).
  vm_compute. reflexivity.
Defined.

(** ** Which exceptions can be raised *)

Lemma int_to_float_exn z e : int_to_float z = Raise e -> e = OverflowError.
Proof.
  unfold int_to_float. destruct (binary_normalize prec emax z 0 false);
    intros H; try discriminate. now injection H.
Qed.

Lemma int_truediv_60_exn a e : int_truediv a 60 = Raise e -> e = OverflowError.
Proof.
  unfold int_truediv. destruct a; [discriminate | |];
    destruct (SFdiv prec emax _ _); intros H; try discriminate; now injection H.
Qed.

Lemma tiempo_exn p k e :
  (forall secs, int_mul_num k p = Ok secs -> num_truediv_int secs 60 = Raise e -> e = OverflowError) /\
  (int_mul_num k p = Raise e -> e = OverflowError).
Proof.
  destruct p as [z|f]; simpl; split.
  - intros secs [= <-]. apply int_truediv_60_exn.
  - discriminate.
  - intros secs H. bind_inv H. injection H as <-. simpl.
    destruct (float_div_int_Ok (v * f) 60 ltac:(auto)) as [g ->]. discriminate.
  - destruct (int_to_float k) eqn:E; simpl; [discriminate|].
    intros [= <-]. eapply int_to_float_exn; eassumption.
Qed.

Lemma punto_de_exn vi p k e : punto_de vi p k = Raise e -> e = OverflowError.
Proof.
  unfold punto_de. destruct (tiempo_exn p k e) as [H1 H2].
  destruct (int_mul_num k p) as [secs|e'] eqn:E1; simpl; [| intros [= <-]; auto].
  unfold float_mul_int.
  destruct (int_to_float (2 ^ k)) as [f|e'] eqn:E2; simpl.
  - destruct (num_truediv_int secs 60) as [g|e'] eqn:E3; simpl; [discriminate|].
    intros [= <-]. now apply (H1 secs).
  - intros [= <-]. eapply int_to_float_exn; eassumption.
Qed.

Lemma for_each_paso_exn vi p ks :
  forall acc e, for_each ks (paso vi p) acc = Raise e -> e = OverflowError.
Proof.
  induction ks as [|k ks IH]; simpl; intros acc e; [discriminate|].
  rewrite paso_punto_de.
  destruct (punto_de vi p k) as [pt|e'] eqn:E; simpl.
  - apply IH.
  - intros [= <-]. eapply punto_de_exn; eassumption.
Qed.

Lemma tras_duplicaciones_exn vi p n e :
  tras_duplicaciones vi p n = Raise e -> e = OverflowError.
Proof.
  unfold tras_duplicaciones. destruct (tiempo_exn p n e) as [H1 H2].
  destruct (int_mul_num n p) as [secs|e'] eqn:E1; [rewrite bind_ret | intros [= <-]; auto].
  destruct (num_truediv_int secs 60) as [mins|e'] eqn:E2;
    [rewrite bind_ret | intros [= <-]; eauto].
  destruct (float_div_int_Ok mins 60 ltac:(auto)) as [h ->]. rewrite bind_ret.
  destruct (float_div_int_Ok h 24 ltac:(auto)) as [d ->]. rewrite bind_ret.
  destruct (for_each (range (n + 1)) (paso vi p) []) as [s|e'] eqn:E3;
    [discriminate|].
  intros [= <-]. eapply for_each_paso_exn; eassumption.
Qed.

Lemma leb_zero_eqb x : (x <=? 0)%float = false -> (x =? 0)%float = false.
Proof.
  rewrite leb_spec, eqb_spec. unfold SFleb, SFeqb.
  destruct (SFcompare (Prim2SF x) (Prim2SF 0)) as [[]|]; congruence.
Qed.

(** X5.  Whatever the input, the call returns or raises OverflowError or
    ValueError: the guard of line 32 keeps the division of line 36 from a
    zero divisor, so ZeroDivisionError cannot arise. *)
Theorem excepciones_posibles libm t i p :
  (exists res, calcular_tiempo_para_volumen libm t i p = Ok res) \/
  calcular_tiempo_para_volumen libm t i p = Raise OverflowError \/
  calcular_tiempo_para_volumen libm t i p = Raise ValueError.
Proof.
  destruct ((i <=? 0)%float || (t <=? i)%float) eqn:Hg.
  { left. unfold calcular_tiempo_para_volumen. rewrite Hg. eauto. }
  assert (Hz : (i =? 0)%float = false).
  { apply leb_zero_eqb. now apply orb_false_elim in Hg. }
  destruct (math_log2 libm (t / i)%float) as [l|e] eqn:El.
  2:{ right; right. unfold calcular_tiempo_para_volumen, float_div.
      rewrite Hg, Hz, bind_ret, El. simpl.
      unfold math_log2 in El.
      repeat match type of El with
             | (if ?c then _ else _) = _ => destruct c
             | (let r := _ in _) = _ => cbv zeta in El
             end; try discriminate; now injection El as <-. }
  destruct (math_ceil l) as [n|e] eqn:En.
  2:{ unfold calcular_tiempo_para_volumen, float_div.
      rewrite Hg, Hz, bind_ret, El, bind_ret, En. simpl.
      unfold math_ceil in En.
      destruct (Prim2SF l); try discriminate; injection En as <-; auto. }
  rewrite (calcular_tras libm t i p l n Hg Hz El En).
  destruct (tras_duplicaciones i p n) as [res|e] eqn:E; [eauto|].
  right; left. f_equal. eapply tras_duplicaciones_exn; eassumption.
Qed.

(** X6.  A NaN volume raises ValueError: a NaN initial volume always, a NaN
    target whenever the initial volume is above zero.  The guard of line 32
    lets NaN through (every comparison with NaN is false) and [math.ceil]
    refuses it. *)
Theorem volumen_nan libm t i p :
  is_nan i = true \/ (is_nan t = true /\ (i <=? 0)%float = false) ->
  calcular_tiempo_para_volumen libm t i p = Raise ValueError.
Proof.
  intros H.
  assert (Hnan : forall x, is_nan x = true -> Prim2SF x = S754_nan).
  { intros x Hx. rewrite is_nan_spec in Hx. destruct (Prim2SF x); try discriminate.
    reflexivity. }
  assert (Hg : (i <=? 0)%float || (t <=? i)%float = false).
  { destruct H as [Hi | [Ht Hi]].
    - rewrite !leb_spec, (Hnan _ Hi). simpl. now destruct (Prim2SF t).
    - rewrite Hi. rewrite leb_spec, (Hnan _ Ht). reflexivity. }
  assert (Hq : Prim2SF (t / i) = S754_nan).
  { rewrite div_spec. destruct H as [Hi | [Ht Hi]].
    - rewrite (Hnan _ Hi). now destruct (Prim2SF t).
    - rewrite (Hnan _ Ht). reflexivity. }
  unfold calcular_tiempo_para_volumen, float_div.
  rewrite Hg, (leb_zero_eqb i), bind_ret by (now apply orb_false_elim in Hg).
  unfold math_log2. rewrite is_nan_spec, Hq, bind_ret.
  unfold math_ceil. now rewrite Hq.
Qed.

Lemma volumen_nan_witness :
  calcular_tiempo_para_volumen log2_ref nan 1 TIEMPO_DUPLICACION = Raise ValueError.
Proof.
  apply (volumen_nan log2_ref nan 1 TIEMPO_DUPLICACION).
  right. split; reflexivity.
Defined.

Lemma cociente_desbordado_witness :
  calcular_tiempo_para_volumen log2_ref 1e308 1e-10 TIEMPO_DUPLICACION
  = Raise OverflowError.
Proof.
  apply (cociente_desbordado log2_ref 1e308 1e-10 TIEMPO_DUPLICACION); reflexivity.
Defined.

(** X7.  With float volumes, when the ceiling of the logarithm is 1024 or
    more the call raises OverflowError: some conversion to float fails,
    at the latest [float(2 ** 1024)], to which line 46 converts the power
    for a float initial volume. *)
Theorem demasiadas_duplicaciones libm t i p ql :
  (0 <? i)%float = true -> (i <? t)%float = true ->
  is_infinity (t / i) = false ->
  float_value (libm (t / i)%float) = Some ql ->
  1024 <= Qceiling ql ->
  calcular_tiempo_para_volumen libm t i p = Raise OverflowError.
Proof.
  intros Hi Ht Hinf Hql Hn.
  destruct (cociente_clases t i Hi Ht) as [E | (mt & et & mi & ei & mr & er & _ & _ & Er & _)].
  { rewrite is_infinity_spec, E in Hinf. discriminate. }
  pose proof (calcular_tras libm t i p (libm (t / i)%float) (Qceiling ql)
                (no_degenerado _ _ Hi Ht) (ltb_zero_eqb _ Hi)
                (math_log2_finite _ _ _ _ _ Er Hql) (math_ceil_Qceiling _ _ Hql)) as Hc.
  destruct (tras_duplicaciones i p (Qceiling ql)) as [[[m n] s]|e] eqn:E.
  - exfalso. unfold tras_duplicaciones in E.
    bind_inv E. bind_inv E. bind_inv E. bind_inv E. bind_inv E.
    match goal with
    | Hs : for_each _ _ _ = Ok _ |- _ => pose proof (serie_cota _ _ _ _ Hs)
    end. lia.
  - rewrite Hc. f_equal. eapply tras_duplicaciones_exn; eassumption.
Qed.

Lemma demasiadas_duplicaciones_witness :
  calcular_tiempo_para_volumen log2_ref 1e8 1e-300 TIEMPO_DUPLICACION
  = Raise OverflowError.
Proof.
  eapply (demasiadas_duplicaciones log2_ref 1e8 1e-300 TIEMPO_DUPLICACION);
    [reflexivity | reflexivity | reflexivity | vm_compute; reflexivity
    | vm_compute; discriminate].
Defined.

(** ** A doubling period of whole minutes *)

(** [a / 60] for an int [a = 60 * c]: exactly [c], as long as [c] fits the
    53 bits of a double. *)
Lemma int_truediv_60_exact a c f :
  a = 60 * c -> 0 <= c < 2 ^ 53 -> int_truediv a 60 = Ok f ->
  exists q, float_value f = Some q /\ (q == inject_Z c)%Q.
Proof.
  intros -> Hc. unfold int_truediv.
  destruct (60 * c) as [|p|p] eqn:Ea; try lia.
  - intros [= <-]. exists 0%Q. split; [reflexivity|].
    replace c with 0 by lia. reflexivity.
  - simpl Z.abs; simpl Z.to_pos.
    change (60 <? 0) with false; change (Z.to_pos 60) with 60%positive.
    change (Zpos p <? 0) with false.
    pose proof (SFdiv_60_rounds false p) as Hr.
    assert (HX : (inject_Z (Zpos p) / 60 == inject_Z c * Q2 0)%Q).
    { rewrite <- Ea, inject_Z_mult. change (Q2 0) with 1%Q.
      change (inject_Z 60) with 60%Q. field. }
    pose proof (rounds_exact _ _ _ _ _ Hr HX ltac:(lia) ltac:(lia)) as Hex.
    destruct (SFdiv _ _ _ _) as [s|s| |s m e] eqn:E; try contradiction; try discriminate.
    intros [= <-]. destruct (rounds_to_finite _ _ _ _ _ Hr) as [-> Hb].
    destruct (float_value_finite_pos (SF2Prim (S754_finite false m e)) m e
                (Prim2SF_SF2Prim (S754_finite false m e) Hb)) as (q & Hq & Vq).
    exists q. split; [exact Hq|]. rewrite Vq, Hex, HX. change (Q2 0) with 1%Q. ring.
Qed.

(** X8.  With an int doubling period of [c] whole minutes (the default,
    [5 * 60] seconds, is 5 minutes) the elapsed minutes carry no rounding
    error: the point of index [k] holds exactly [c * k]. *)
Theorem minutos_exactos libm t i c m n s :
  0 <= c <= 2 ^ 43 ->
  calcular_tiempo_para_volumen libm t i (PyInt (c * 60)) = Ok (m, n, s) ->
  forall j e v k, nth_error s j = Some (e, v, k) ->
    exists q, float_value e = Some q /\ (q == inject_Z (c * k))%Q.
Proof.
  intros Hc H j e v k Hj.
  destruct ((i <=? 0)%float || (t <=? i)%float) eqn:Hg.
  { unfold calcular_tiempo_para_volumen in H. rewrite Hg in H.
    injection H as <- <- <-. destruct j; discriminate. }
  destruct (punto_de_serie _ _ _ _ _ _ _ _ _ _ _ Hg H Hj)
    as (Hk & _ & secs & Hsecs & He & Hv).
  assert (Hk0 : 0 <= k) by lia.
  assert (Hk1 : k <= 1023) by (apply (float_mul_int_pow2 i k v); assumption).
  simpl in Hsecs. injection Hsecs as <-. simpl in He.
  apply (int_truediv_60_exact (k * (c * 60)) (c * k) e); [lia | nia | exact He].
Qed.

Lemma minutos_exactos_witness :
  exists q, float_value 10 = Some q /\ (q == inject_Z (5 * 2))%Q.
Proof.
  assert (H : calcular_tiempo_para_volumen log2_ref 4 1 (PyInt (5 * 60))
              = Ok (PyFloat 10, 2, serie_4_1)) by (vm_compute; reflexivity).
  apply (minutos_exactos log2_ref 4 1 5 (PyFloat 10) 2 serie_4_1 ltac:(lia) H
           2%nat 10%float 4%float 2 eq_refl).
Defined.

(** ** The first point *)

Lemma SFmag_inj m1 e1 m2 e2 :
  bounded prec emax m1 e1 = true -> bounded prec emax m2 e2 = true ->
  (SFmag m1 e1 == SFmag m2 e2)%Q -> m1 = m2 /\ e1 = e2.
Proof.
  intros B1 B2 H.
  assert (e1 = e2) as ->.
  { destruct (Z.lt_trichotomy e1 e2) as [Hlt | [Heq | Hgt]]; [| assumption |].
    - pose proof (bounded_lt_exp _ _ _ _ B1 B2 Hlt). lra.
    - pose proof (bounded_lt_exp _ _ _ _ B2 B1 Hgt). lra. }
  split; [| reflexivity].
  destruct (Pos.lt_total m1 m2) as [Hlt | [Heq | Hgt]]; [| assumption |].
  - pose proof (proj2 (SFmag_same_exp m1 m2 e2) Hlt). lra.
  - pose proof (proj2 (SFmag_same_exp m2 m1 e2) Hgt). lra.
Qed.

(** X10.  A returned series starts at the initial volume itself, with index
    0, and, when the doubling period is an int, at minute [0.0]. *)
Theorem primer_punto libm t i p m n s e v k :
  (0 <? i)%float = true -> (i <? t)%float = true ->
  calcular_tiempo_para_volumen libm t i p = Ok (m, n, s) ->
  nth_error s 0 = Some (e, v, k) ->
  v = i /\ k = 0 /\ forall z, p = PyInt z -> e = 0%float.
Proof.
  intros Hi Ht H H0.
  destruct (inicial_finito t i Hi Ht) as (mi & ei & Ei).
  destruct (punto_de_serie _ _ _ _ _ _ _ _ _ _ _ (no_degenerado _ _ Hi Ht) H H0)
    as (-> & _ & secs & Hsecs & He & Hv).
  change (Z.of_nat 0) with 0 in *.
  split; [| split; [reflexivity|]].
  - pose proof (Prim2SF_valid i) as Bi. rewrite Ei in Bi. simpl in Bi.
    destruct (float_mul_int_pow2_exact i 0 v mi ei Ei ltac:(lia) Hv)
      as [(mv & ev & Ev & Bv & Vv) | (_ & Hov)].
    + change (Q2 0) with 1%Q in Vv. rewrite Qmult_1_r in Vv.
      destruct (SFmag_inj _ _ _ _ Bv Bi Vv) as [-> ->].
      rewrite <- (SF2Prim_Prim2SF v), <- (SF2Prim_Prim2SF i), Ev, Ei. reflexivity.
    + pose proof (bounded_lt_max _ _ Bi). change (Q2 0) with 1%Q in Hov. lra.
  - intros z ->. simpl in Hsecs. injection Hsecs as <-. simpl in He.
    now injection He as <-.
Qed.

Lemma primer_punto_witness :
  1%float = 1%float /\ 0 = 0 /\ forall z, TIEMPO_DUPLICACION = PyInt z -> 0%float = 0%float.
Proof.
  assert (H : calcular_tiempo_para_volumen log2_ref 4 1 TIEMPO_DUPLICACION
              = Ok (PyFloat 10, 2, serie_4_1)) by (vm_compute; reflexivity).
  apply (primer_punto log2_ref 4 1 TIEMPO_DUPLICACION (PyFloat 10) 2 serie_4_1
           0%float 1%float 0 eq_refl eq_refl H eq_refl).
Defined.

(** X9.  With an int doubling period of [c] whole minutes the total of
    minutes of a non-degenerate call carries no rounding error either: it
    is exactly [c * n] for the count [n] returned, when that is not
    negative. *)
Theorem total_exacto libm t i c m n s :
  0 <= c <= 2 ^ 43 ->
  (i <=? 0)%float || (t <=? i)%float = false ->
  calcular_tiempo_para_volumen libm t i (PyInt (c * 60)) = Ok (m, n, s) ->
  0 <= n ->
  exists f q, m = PyFloat f /\ float_value f = Some q /\ (q == inject_Z (c * n))%Q.
Proof.
  intros Hc Hg H Hn.
  destruct (calcular_Ok _ _ _ _ _ _ _ Hg H)
    as (l & secs & mins & _ & _ & Hsecs & Hmins & -> & Hs).
  pose proof (serie_cota _ _ _ _ Hs) as Hn1.
  simpl in Hsecs. injection Hsecs as <-. simpl in Hmins.
  destruct (int_truediv_60_exact (n * (c * 60)) (c * n) mins) as (q & Hq & Vq);
    [lia | nia | exact Hmins |].
  exists mins, q. auto.
Qed.

Lemma total_exacto_witness :
  exists f q, PyFloat 10 = PyFloat f /\ float_value f = Some q /\
              (q == inject_Z (5 * 2))%Q.
Proof.
  assert (H : calcular_tiempo_para_volumen log2_ref 4 1 (PyInt (5 * 60))
              = Ok (PyFloat 10, 2, serie_4_1)) by (vm_compute; reflexivity).
  apply (total_exacto log2_ref 4 1 5 (PyFloat 10) 2 serie_4_1 ltac:(lia) eq_refl H
           ltac:(lia)).
Defined.

(** ** The objectives of the bar chart *)

Lemma for_each_paso_objetivo libm os :
  forall ts ns ts' ns',
    for_each os (paso_objetivo libm) (ts, ns) = Ok (ts', ns') ->
    exists ts1,
      ts' = ts ++ ts1 /\
      ns' = ns ++ map fst (filter sobre_dorayaki os) /\
      Forall2 (fun o t => exists f n s,
                 t = PyFloat f /\
                 calcular_tiempo_para_volumen libm (snd o) VOLUMEN_DORAYAKI
                   TIEMPO_DUPLICACION = Ok (PyFloat f, n, s))
              (filter sobre_dorayaki os) ts1.
Proof.
  induction os as [|[nombre volumen] os IH]; intros ts ns ts' ns' H.
  - injection H as <- <-. exists []. rewrite !app_nil_r. repeat split. constructor.
  - cbn [for_each] in H. bind_inv H. destruct v as [ts0 ns0].
    cbn [filter]. unfold paso_objetivo in E.
    destruct (VOLUMEN_DORAYAKI <? volumen)%float eqn:Hv;
      change (sobre_dorayaki (nombre, volumen)) with (VOLUMEN_DORAYAKI <? volumen)%float;
      rewrite Hv.
    + bind_inv E. destruct v as [[tiempo n] s]. injection E as <- <-.
      destruct (IH _ _ _ _ H) as (ts1 & -> & -> & HF).
      assert (Hg : (VOLUMEN_DORAYAKI <=? 0)%float || (volumen <=? VOLUMEN_DORAYAKI)%float
                   = false) by (apply no_degenerado; [reflexivity | exact Hv]).
      pose proof (calcular_Ok libm volumen VOLUMEN_DORAYAKI TIEMPO_DUPLICACION
                    tiempo n s Hg E0) as HH.
      destruct HH as (l & secs & mins & _ & _ & _ & _ & -> & _).
      exists (PyFloat mins :: ts1). rewrite <- !app_assoc. cbn [map fst app].
      repeat split. constructor; [| exact HF]. exists mins, n, s. split; [reflexivity | exact E0].
    + injection E as <- <-. exact (IH _ _ _ _ H).
Qed.

(** X11.  The loop that gathers the bars of the fourth chart keeps exactly
    the objectives above one dorayaki, in their order: the names are those
    of the kept objectives, and the time of each is the float total of
    minutes of its call, never the int 0 of a degenerate input, so both
    lists have the same length. *)
Theorem objetivos_filtrados libm os tiempos_objetivos nombres :
  tiempos_de_objetivos libm os = Ok (tiempos_objetivos, nombres) ->
  nombres = map fst (filter sobre_dorayaki os) /\
  length tiempos_objetivos = length nombres /\
  Forall2 (fun o t => exists f n s,
             t = PyFloat f /\
             calcular_tiempo_para_volumen libm (snd o) VOLUMEN_DORAYAKI
               TIEMPO_DUPLICACION = Ok (PyFloat f, n, s))
          (filter sobre_dorayaki os) tiempos_objetivos.
Proof.
  intros H. destruct (for_each_paso_objetivo _ _ _ _ _ _ H) as (ts1 & -> & -> & HF).
  cbn [app]. repeat split; [| exact HF].
  rewrite length_map. symmetry. exact (Forall2_length HF).
Qed.

Lemma objetivos_filtrados_witness :
  ["Pelota"; "Tokyo Dome"; "Tierra"; "Sistema Solar"]%string
    = map fst (filter sobre_dorayaki objetivos) /\
  length [PyFloat 30; PyFloat 165; PyFloat 415; PyFloat 705]
    = length ["Pelota"; "Tokyo Dome"; "Tierra"; "Sistema Solar"]%string /\
  Forall2 (fun o t => exists f n s,
             t = PyFloat f /\
             calcular_tiempo_para_volumen log2_ref (snd o) VOLUMEN_DORAYAKI
               TIEMPO_DUPLICACION = Ok (PyFloat f, n, s))
          (filter sobre_dorayaki objetivos)
          [PyFloat 30; PyFloat 165; PyFloat 415; PyFloat 705].
Proof.
  apply (objetivos_filtrados log2_ref objetivos
           [PyFloat 30; PyFloat 165; PyFloat 415; PyFloat 705]
           ["Pelota"; "Tokyo Dome"; "Tierra"; "Sistema Solar"]%string).
  vm_compute. reflexivity.
Defined.

(** ** The value of each operation *)

Lemma rounds_to_valid X sf s :
  rounds_to X sf s -> Prim2SF (SF2Prim sf) = sf.
Proof.
  intros Hr. apply Prim2SF_SF2Prim.
  destruct sf as [s'|s'| |s' m e]; try reflexivity.
  exact (proj2 (rounds_to_finite _ _ _ _ _ Hr)).
Qed.

Lemma Ok_inj {A : Type} (a b : A) : Ok a = Ok b -> a = b.
Proof. now intros [= ->]. Qed.

Lemma Qcompare_pos x : (0 < x)%Q -> (x ?= 0)%Q = Gt.
Proof. intros H. now apply Qgt_alt. Qed.

Lemma Qcompare_neg x : (x < 0)%Q -> (x ?= 0)%Q = Lt.
Proof. intros H. now apply Qlt_alt. Qed.

Lemma inject_Z_div_60_pos p : (0 < inject_Z (Zpos p) / 60)%Q.
Proof.
  assert (0 < inject_Z (Zpos p))%Q by (apply (inject_Z_pos_lt 0); lia).
  apply Qlt_shift_div_l; lra.
Qed.

(** [a / 60] on an int [a]: a nearest double of the quotient. *)
Lemma int_truediv_60_nearest a f :
  int_truediv a 60 = Ok f -> nearest_double (inject_Z a / 60) f.
Proof.
  unfold int_truediv, nearest_double. destruct a as [|p|p].
  - intros [= <-]. reflexivity.
  - simpl Z.abs; simpl Z.to_pos.
    change (60 <? 0) with false; change (Z.to_pos 60) with 60%positive.
    change (Zpos p <? 0) with false.
    rewrite (Qcompare_pos _ (inject_Z_div_60_pos p)).
    pose proof (SFdiv_60_rounds false p) as Hr.
    destruct (SFdiv _ _ _ _) as [s|s| |s m e] eqn:E; try discriminate;
      intros H; apply Ok_inj in H; subst f; now rewrite (rounds_to_valid _ _ _ Hr).
  - simpl Z.abs; simpl Z.to_pos.
    change (60 <? 0) with false; change (Z.to_pos 60) with 60%positive.
    change (Zneg p <? 0) with true.
    change (- (inject_Z (Zneg p) / 60))%Q with (inject_Z (Zpos p) / 60)%Q.
    rewrite Qcompare_neg.
    2:{ pose proof (inject_Z_div_60_pos p) as H.
        change (inject_Z (Zneg p) / 60)%Q with (- (inject_Z (Zpos p) / 60))%Q. lra. }
    pose proof (SFdiv_60_rounds true p) as Hr.
    destruct (SFdiv _ _ _ _) as [s|s| |s m e] eqn:E; try discriminate;
      intros H; apply Ok_inj in H; subst f; now rewrite (rounds_to_valid _ _ _ Hr).
Qed.

(** [float(n)] on an int [n]: a nearest double of [n]. *)
Lemma int_to_float_nearest n f :
  int_to_float n = Ok f -> nearest_double (inject_Z n) f.
Proof.
  unfold int_to_float, binary_normalize, nearest_double. destruct n as [|p|p].
  - intros [= <-]. reflexivity.
  - change (inject_Z (Zpos p) ?= 0)%Q with Gt.
    pose proof (binary_normalize_rounds p false) as Hr.
    destruct (binary_round _ _ _ _ _) as [s|s| |s m e] eqn:E; try discriminate;
      intros H; apply Ok_inj in H; subst f; now rewrite (rounds_to_valid _ _ _ Hr).
  - change (inject_Z (Zneg p) ?= 0)%Q with Lt.
    change (- inject_Z (Zneg p))%Q with (inject_Z (Zpos p)).
    pose proof (binary_normalize_rounds p true) as Hr.
    destruct (binary_round _ _ _ _ _) as [s|s| |s m e] eqn:E; try discriminate;
      intros H; apply Ok_inj in H; subst f; now rewrite (rounds_to_valid _ _ _ Hr).
Qed.

(** [x / 60] on a float [x]: the IEEE quotient by [60.0]. *)
Lemma float_div_int_60 x f : float_div_int x 60 = Ok f -> f = (x / 60)%float.
Proof.
  unfold float_div_int, float_div.
  change (int_to_float 60) with (Ok 60%float). rewrite bind_ret.
  change (60 =? 0)%float with false. now intros [= <-].
Qed.

(** The minutes [(k * period) / 60] of lines 38 and 45-47, by the type of
    the period. *)
Lemma minutos_de_Ok k p secs mins :
  int_mul_num k p = Ok secs -> num_truediv_int secs 60 = Ok mins ->
  match p with
  | PyInt z => nearest_double (inject_Z (k * z) / 60) mins
  | PyFloat g =>
      exists fk, nearest_double (inject_Z k) fk /\ mins = (fk * g / 60)%float
  end.
Proof.
  destruct p as [z|g]; simpl; intros H1 H2.
  - injection H1 as <-. now apply int_truediv_60_nearest.
  - bind_inv H1. injection H1 as <-. exists v. split.
    + now apply int_to_float_nearest.
    + now apply float_div_int_60.
Qed.

(** ** A float period *)

Lemma bounded_exp_gt m e :
  bounded prec emax m e = true -> (Q2 (-1021) <= SFmag m e)%Q -> -1074 < e.
Proof.
  intros Hb Hv.
  destruct (canonical_bound _ _ (bounded_canonical _ _ Hb)) as [He Hm].
  destruct (Z.eq_dec e (-1074)) as [->|]; [exfalso | lia].
  apply inject_Z_pos_lt in Hm. rewrite <- (Q2_Z 53) in Hm by lia.
  pose proof (Q2_pos (-1074)) as Pe.
  assert (inject_Z (Zpos m) * Q2 (-1074) < Q2 53 * Q2 (-1074))%Q
    by (apply Qmult_lt_compat_r; assumption).
  rewrite <- Q2_add in H. change (53 + -1074) with (-1021) in H.
  unfold SFmag in Hv. lra.
Qed.

(** [float(k)] is exact for a positive [k] of at most 53 bits. *)
Lemma int_to_float_small k fk :
  0 < k < 2 ^ 53 -> int_to_float k = Ok fk ->
  exists mk ek, Prim2SF fk = S754_finite false mk ek /\
                bounded prec emax mk ek = true /\
                (SFmag mk ek == inject_Z k)%Q.
Proof.
  intros Hk H. pose proof (int_to_float_nearest _ _ H) as Hn.
  unfold nearest_double in Hn.
  rewrite Qcompare_pos in Hn by (apply (inject_Z_pos_lt 0); lia).
  assert (HX : (inject_Z k == inject_Z k * Q2 0)%Q) by (change (Q2 0) with 1%Q; ring).
  pose proof (rounds_exact _ _ _ _ _ Hn HX Hk ltac:(lia)) as Hex.
  destruct (Prim2SF fk) as [s|s| |s m e] eqn:E; try contradiction.
  - exfalso. assert (inject_Z k < inject_Z (2 ^ 53))%Q by (apply inject_Z_pos_lt; lia).
    rewrite <- (Q2_Z 53) in H0 by lia.
    assert (Q2 53 <= Q2 1024)%Q by (apply Q2_le; lia). lra.
  - destruct (rounds_to_finite _ _ _ _ _ Hn) as [-> Hb]. eauto.
Qed.

Lemma Prim2SF_60 :
  Prim2SF 60 = S754_finite false 8444249301319680 (-47) /\
  (SFmag 8444249301319680 (-47) == 60)%Q.
Proof. split; vm_compute; reflexivity. Qed.

(** The error of one rounding, also below the normal range: at most
    [2 ^ -53] of the value plus half of the smallest double. *)
Lemma rounds_abs_err X res s :
  rounds_to X res s ->
  match res with
  | S754_zero _ => (X * (1 - Q2 (-53)) <= Q2 (-1075))%Q
  | S754_finite _ m e =>
      (X * (1 - Q2 (-53)) - Q2 (-1075) <= SFmag m e)%Q /\
      (SFmag m e <= X * (1 + Q2 (-53)) + Q2 (-1075))%Q
  | S754_infinity _ => True
  | S754_nan => False
  end.
Proof.
  intros (D & m & Hlo & Hhi & Hm & Hr1 & Hr2 & _ & _ & Hres).
  set (E := Z.max (D - 53) (-1074)) in *.
  pose proof (Q2_pos E) as Pe.
  assert (Hu : (Q2 E * (1 # 2) <= X * Q2 (-53) + Q2 (-1075))%Q).
  { pose proof (Q2_pos (-1075)) as Pd. pose proof (Q2_pos (-53)) as Pu.
    destruct (Z.le_gt_cases (-1074) (D - 53)) as [Hc|Hc].
    - replace E with (D - 53) by lia.
      assert (Q2 (D - 53) * (1 # 2) == Q2 (D - 1) * Q2 (-53))%Q as ->.
      { replace (D - 53) with (D - 1 + -53 + 1) by lia.
        rewrite (Q2_add (D - 1 + -53) 1), (Q2_add (D - 1) (-53)).
        change (Q2 1) with 2%Q. ring. }
      assert (Q2 (D - 1) * Q2 (-53) <= X * Q2 (-53))%Q
        by (apply Qmult_le_compat_r; lra).
      lra.
    - replace E with (-1074) by lia.
      assert (Q2 (-1074) * (1 # 2) == Q2 (-1075))%Q as ->.
      { change (-1074) with (-1075 + 1). rewrite Q2_add.
        change (Q2 1) with 2%Q. ring. }
      assert (0 <= X * Q2 (-53))%Q.
      { apply Qmult_le_0_compat; [| lra]. pose proof (Q2_pos (D - 1)). lra. }
      lra. }
  assert (Hv1 : (inject_Z m * Q2 E - X <= Q2 E * (1 # 2))%Q).
  { apply Qmult_le_compat_r with (z := Q2 E) in Hr1; [| lra].
    rewrite <- (Qdiv_mul_cancel X (Q2 E) Pe) at 1.
    set (y := (X / Q2 E)%Q) in *. lra. }
  assert (Hv2 : (X - inject_Z m * Q2 E <= Q2 E * (1 # 2))%Q).
  { apply Qmult_le_compat_r with (z := Q2 E) in Hr2; [| lra].
    rewrite <- (Qdiv_mul_cancel X (Q2 E) Pe) at 1.
    set (y := (X / Q2 E)%Q) in *. lra. }
  destruct res as [s'|s'| |s' mr er]; auto.
  - destruct Hres as [_ ->]. change (inject_Z 0) with 0%Q in Hv2. lra.
  - destruct Hres as (_ & _ & Hv). unfold SFmag. rewrite Hv. split; lra.
Qed.

(** A value of at most the largest double does not round to infinity. *)
Lemma rounds_no_overflow X res s :
  rounds_to X res s -> (X <= Q2 1024 - Q2 971)%Q ->
  match res with
  | S754_infinity _ => False
  | _ => True
  end.
Proof.
  intros (D & m & Hlo & Hhi & Hm & _ & _ & Hup & _ & Hres) HX.
  destruct res as [s'|s'| |s' mr er]; auto.
  destruct Hres as [_ Hinf].
  set (E := Z.max (D - 53) (-1074)) in *.
  pose proof (Q2_pos 971) as P971. pose proof (Q2_pos E) as Pe.
  assert (HD : D - 1 < 1024) by (apply Q2_lt_inv; lra).
  assert (HE : E <= 971) by lia.
  assert (HEq : (Q2 E <= Q2 971)%Q) by (apply Q2_le; lia).
  assert (H1024 : (Q2 1024 == inject_Z (2 ^ (1024 - E)) * Q2 E)%Q).
  { rewrite <- (Q2_Z (1024 - E)), <- Q2_add by lia.
    replace (1024 - E + E) with 1024 by lia. reflexivity. }
  assert (Hz : m <= 2 ^ (1024 - E) - 1).
  { apply Hup. apply Qle_shift_div_r; [assumption|].
    unfold Z.sub at 1. rewrite inject_Z_plus. change (inject_Z (- (1))) with (- (1))%Q.
    set (c := inject_Z (2 ^ (1024 - E))) in *. lra. }
  apply inject_Z_pos_le in Hz.
  unfold Z.sub at 1 in Hz. rewrite inject_Z_plus in Hz.
  change (inject_Z (- (1))) with (- (1))%Q in Hz.
  assert (inject_Z m * Q2 E <= (inject_Z (2 ^ (1024 - E)) + - (1)) * Q2 E)%Q
    by (apply Qmult_le_compat_r; lra).
  set (c := inject_Z (2 ^ (1024 - E))) in *. set (y := inject_Z m) in *.
  lra.
Qed.

(** The product of two doubles, the first of them normal, is rounded
    once. *)
Lemma SFmul_rounds_l s1 m1 e1 s2 m2 e2 :
  bounded prec emax m1 e1 = true -> -1074 < e1 ->
  rounds_to (SFmag m1 e1 * SFmag m2 e2)
            (SFmul prec emax (S754_finite s1 m1 e1) (S754_finite s2 m2 e2))
            (xorb s1 s2).
Proof.
  intros Hb He. unfold SFmul.
  destruct (canonical_normal _ _ (bounded_canonical _ _ Hb) He) as [Hm1 _].
  assert (Hprod : 2 ^ 52 <= Zpos (m1 * m2)) by (rewrite Pos2Z.inj_mul; nia).
  apply binary_round_aux_rounds; [lia | |].
  - simpl. unfold SFmag. rewrite Pos2Z.inj_mul, inject_Z_mult, Q2_add.
    pose proof (Q2_pos e1). pose proof (Q2_pos e2). field. lra.
  - pose proof (Zdigits2_bounds (Zpos (m1 * m2)) ltac:(lia)) as [_ Hd].
    assert (52 < Zdigits2 (Zpos (m1 * m2))).
    { apply (Z.pow_lt_mono_r_iff 2); [lia | | lia].
      apply Z.lt_le_incl, Zdigits2_pos. lia. }
    rewrite fexp_eq. lia.
Qed.

(** With a period [g] from [2 ^ -1067] to [2 ^ 1014] the minutes at a
    positive index of at most 1023 are a finite double, [k * g / 60] up to
    two roundings. *)
Lemma minutos_float_cotas g mg eg k fk mk ek :
  Prim2SF g = S754_finite false mg eg ->
  (Q2 (-1067) <= SFmag mg eg)%Q -> (SFmag mg eg <= Q2 1014)%Q ->
  1 <= k <= 1023 ->
  Prim2SF fk = S754_finite false mk ek -> bounded prec emax mk ek = true ->
  (SFmag mk ek == inject_Z k)%Q ->
  exists me ee,
    Prim2SF (fk * g / 60) = S754_finite false me ee /\
    bounded prec emax me ee = true /\
    ((inject_Z k * SFmag mg eg * (1 - Q2 (-53)) - Q2 (-1075)) * (1 - Q2 (-53))
     - 60 * Q2 (-1075) <= 60 * SFmag me ee)%Q /\
    (60 * SFmag me ee
     <= (inject_Z k * SFmag mg eg * (1 + Q2 (-53)) + Q2 (-1075)) * (1 + Q2 (-53))
        + 60 * Q2 (-1075))%Q.
Proof.
  intros Eg Hlo Hhi Hk Ek Bk Vk.
  assert (HkQ : (1 <= inject_Z k)%Q /\ (inject_Z k <= 1023)%Q).
  { split; [apply (inject_Z_pos_le 1) | apply (inject_Z_pos_le k 1023)]; lia. }
  assert (Hek : -1074 < ek).
  { apply (bounded_exp_gt mk ek Bk).
    assert (Q2 (-1021) <= Q2 0)%Q as H by (apply Q2_le; lia).
    change (Q2 0) with 1%Q in H. lra. }
  clear HkQ.
  set (G := SFmag mg eg) in *.
  assert (HkQ : (1 <= inject_Z k)%Q /\ (inject_Z k <= 1023)%Q).
  { split; [apply (inject_Z_pos_le 1) | apply (inject_Z_pos_le k 1023)]; lia. }
  destruct HkQ as [Hk1 Hk2].
  assert (PG : (0 < G)%Q) by apply SFmag_pos.
  set (Y := (inject_Z k * G)%Q).
  assert (HY1 : (G <= Y)%Q).
  { unfold Y. setoid_replace G with (1 * G)%Q at 1 by ring.
    apply Qmult_le_compat_r; lra. }
  assert (HY2 : (Y <= 1023 * G)%Q).
  { unfold Y. apply Qmult_le_compat_r; lra. }
  assert (Ha : (Q2 (-1067) == 256 * Q2 (-1075))%Q).
  { change (-1067) with (8 + -1075). rewrite Q2_add. reflexivity. }
  assert (Ha' : (Q2 (-1073) == 4 * Q2 (-1075))%Q).
  { change (-1073) with (2 + -1075). rewrite Q2_add. reflexivity. }
  assert (Hb : (Q2 1024 == 1024 * Q2 1014)%Q).
  { change 1024 with (10 + 1014) at 1. rewrite Q2_add. reflexivity. }
  assert (Hb' : (Q2 1014 == 8796093022208 * Q2 971)%Q).
  { change 1014 with (43 + 971) at 1. rewrite Q2_add. reflexivity. }
  pose proof (Q2_pos (-1075)) as Pd. pose proof (Q2_pos 971) as Pb.
  set (d := Q2 (-1075)) in *. set (b := Q2 971) in *.
  (* the product *)
  pose proof (SFmul_rounds_l false mk ek false mg eg Bk Hek) as Hr.
  fold G in Hr. simpl xorb in Hr.
  assert (HX : (SFmag mk ek * G == Y)%Q) by (unfold Y; now rewrite Vk).
  assert (Hr1 := rounds_abs_err _ _ _ Hr).
  assert (Hr2 := rounds_no_overflow _ _ _ Hr).
  assert (Ep : Prim2SF (fk * g) = SFmul prec emax (S754_finite false mk ek)
                                    (S754_finite false mg eg))
    by (rewrite mul_spec, Ek, Eg; reflexivity).
  change (Q2 (-53)) with (1 # 9007199254740992)%Q in *.
  destruct (SFmul prec emax _ _) as [s|s| |s mp ep] eqn:Em; try contradiction.
  { exfalso. rewrite HX in Hr1. fold d in Hr1. lra. }
  { exfalso. apply Hr2. rewrite HX. fold b. lra. }
  destruct (rounds_to_finite _ _ _ _ _ Hr) as [-> Bp].
  destruct Hr1 as [Hr1a Hr1b]. rewrite HX in Hr1a, Hr1b. fold d in Hr1a, Hr1b.
  pose proof (bounded_lt_max _ _ Bp) as Pmax.
  set (P := SFmag mp ep) in *.
  (* the quotient *)
  destruct Prim2SF_60 as [E60 V60].
  set (X := (P * (1 # 60))%Q).
  assert (HXd : (X == inject_Z (Zpos mp) * Q2 ep
                      / (inject_Z (Zpos 8444249301319680) * Q2 (-47)))%Q).
  { fold (SFmag mp ep). fold (SFmag 8444249301319680 (-47)). rewrite V60.
    unfold X. fold P. field. }
  pose proof (SFdiv_rounds false mp ep false _ _ X HXd ltac:(unfold X; lra)) as Hd.
  simpl xorb in Hd.
  assert (Hd1 := rounds_abs_err _ _ _ Hd).
  assert (Hd2 := rounds_no_overflow _ _ _ Hd).
  assert (Ee : Prim2SF (fk * g / 60) = SFdiv prec emax (S754_finite false mp ep)
                                         (S754_finite false 8444249301319680 (-47)))
    by (rewrite div_spec, Ep, E60; reflexivity).
  change (Q2 (-53)) with (1 # 9007199254740992)%Q in *. fold d in Hd1.
  destruct (SFdiv prec emax _ _) as [s|s| |s me ee] eqn:Ed; try contradiction.
  { exfalso. unfold X in Hd1. lra. }
  { exfalso. apply Hd2. fold b. unfold X. lra. }
  destruct (rounds_to_finite _ _ _ _ _ Hd) as [-> Be].
  exists me, ee. split; [exact Ee|]. split; [exact Be|].
  unfold X in Hd1. fold Y.
  set (V := SFmag me ee) in *. lra.
Qed.

(** With such a period the minutes [(k * g) / 60] grow strictly over the
    indices from 0 to 1023. *)
Lemma minutos_float_lt g qg k1 k2 fk1 fk2 :
  float_value g = Some qg -> (Q2 (-1067) <= qg)%Q -> (qg <= Q2 1014)%Q ->
  0 <= k1 < k2 -> k2 <= 1023 ->
  int_to_float k1 = Ok fk1 -> int_to_float k2 = Ok fk2 ->
  (fk1 * g / 60 <? fk2 * g / 60)%float = true.
Proof.
  intros Hg Hlo Hhi Hk Hk2 H1 H2.
  pose proof (Q2_pos (-1067)) as P0.
  assert (Eg : exists mg eg, Prim2SF g = S754_finite false mg eg /\
                             (qg == SFmag mg eg)%Q).
  { unfold float_value in Hg. destruct (Prim2SF g) as [s|s| |s m e] eqn:E;
      try discriminate.
    - injection Hg as <-. lra.
    - pose proof (SF2Q_finite _ _ _ _ Hg) as Hv. pose proof (SFmag_pos m e).
      destruct s; [lra|]. eauto. }
  destruct Eg as (mg & eg & Eg & Vg). rewrite Vg in Hlo, Hhi.
  destruct (int_to_float_small k2 fk2 ltac:(lia) H2) as (m2 & e2 & E2 & B2 & V2).
  destruct (minutos_float_cotas g mg eg k2 fk2 m2 e2 Eg Hlo Hhi ltac:(lia) E2 B2 V2)
    as (me2 & ee2 & Ee2 & Be2 & L2 & U2).
  rewrite ltb_spec, Ee2.
  destruct (Z.eq_dec k1 0) as [->|Hne].
  - apply Ok_inj in H1. subst fk1.
    rewrite div_spec, mul_spec, Eg. reflexivity.
  - destruct (int_to_float_small k1 fk1 ltac:(lia) H1) as (m1 & e1 & E1 & B1 & V1).
    destruct (minutos_float_cotas g mg eg k1 fk1 m1 e1 Eg Hlo Hhi ltac:(lia) E1 B1 V1)
      as (me1 & ee1 & Ee1 & Be1 & L1 & U1).
    rewrite Ee1. apply SFltb_finite; try assumption.
    set (G := SFmag mg eg) in *.
    assert (PG : (0 < G)%Q) by apply SFmag_pos.
    assert (HY : (inject_Z k1 * G + G <= inject_Z k2 * G)%Q).
    { setoid_replace (inject_Z k1 * G + G)%Q with ((inject_Z k1 + 1) * G)%Q by ring.
      apply Qmult_le_compat_r; [| lra].
      change 1%Q with (inject_Z 1). rewrite <- inject_Z_plus.
      apply inject_Z_pos_le. lia. }
    assert (HY1 : (inject_Z k1 * G <= 1023 * G)%Q).
    { apply Qmult_le_compat_r; [| lra]. apply (inject_Z_pos_le k1 1023). lia. }
    assert (Ha : (Q2 (-1067) == 256 * Q2 (-1075))%Q).
    { change (-1067) with (8 + -1075). rewrite Q2_add. reflexivity. }
    pose proof (Q2_pos (-1075)) as Pd.
    change (Q2 (-53)) with (1 # 9007199254740992)%Q in *.
    set (d := Q2 (-1075)) in *.
    set (Y1 := (inject_Z k1 * G)%Q) in *. set (Y2 := (inject_Z k2 * G)%Q) in *.
    set (W1 := SFmag me1 ee1) in *. set (W2 := SFmag me2 ee2) in *.
    lra.
Qed.

(** ** The values of the points and of the total *)

(** C3.  On a non-degenerate input the returned series has
    [duplicationsNeeded + 1] points, and its [k]-th point, for [k] from 0
    to [duplicationsNeeded], has index [k], the volume
    [initialVolume * 2 ^ k] exactly ([+infinity] once that reaches
    [2 ^ 1024]), and the minutes [(k * doublingPeriod) / 60]: a nearest
    double of that quotient for an int period, the IEEE product and
    quotient [float(k) * period / 60.0] for a float one.  The platform's
    logarithm is taken to be non-negative at the quotient. *)
Theorem serie_puntos libm t i p m n s :
  (0 <? i)%float = true -> (i <? t)%float = true ->
  (0 <=? libm (t / i)%float)%float = true ->
  calcular_tiempo_para_volumen libm t i p = Ok (m, n, s) ->
  0 <= n /\ length s = Z.to_nat (n + 1) /\
  exists qi, float_value i = Some qi /\
  forall k, 0 <= k <= n ->
    exists e v,
      nth_error s (Z.to_nat k) = Some (e, v, k) /\
      ((exists qv, float_value v = Some qv /\ (qv == qi * Q2 k)%Q) \/
       (v = infinity /\ (Q2 1024 <= qi * Q2 k)%Q)) /\
      match p with
      | PyInt z => nearest_double (inject_Z (k * z) / 60) e
      | PyFloat g =>
          exists fk, nearest_double (inject_Z k) fk /\ e = (fk * g / 60)%float
      end.
Proof.
  intros Hi Ht Hl H.
  destruct (cociente_finito _ _ _ _ _ _ _ Hi Ht H)
    as (_ & _ & _ & _ & _ & _ & _ & _ & _ & _ & _ & _ & Hc).
  destruct (calcular_Ok _ _ _ _ _ _ _ (no_degenerado _ _ Hi Ht) H)
    as (_ & _ & _ & _ & _ & _ & _ & _ & Hs).
  pose proof (math_ceil_nonneg _ _ Hl Hc) as Hn.
  destruct (serie_Ok _ _ _ _ Hs) as [Hlen Hpt].
  destruct (inicial_finito t i Hi Ht) as (mi & ei & Ei).
  destruct (float_value_finite_pos _ _ _ Ei) as (qi & Hqi & Vi).
  split; [assumption|]. split; [assumption|].
  exists qi. split; [assumption|].
  intros k Hk.
  destruct (nth_error s (Z.to_nat k)) as [[[e v] k']|] eqn:E.
  2:{ apply nth_error_None in E. lia. }
  specialize (Hpt _ _ E). rewrite Z2Nat.id in Hpt by lia.
  destruct (punto_de_Ok _ _ _ _ _ _ Hpt) as (-> & secs & H1 & H2 & H3).
  exists e, v. split; [reflexivity|]. split.
  - destruct (float_mul_int_pow2_exact i k v mi ei Ei ltac:(lia) H3)
      as [(mv & ev & Ev & _ & Vv) | (Ev & Hov)].
    + left. destruct (float_value_finite_pos _ _ _ Ev) as (qv & Hqv & Vq).
      exists qv. split; [assumption|]. now rewrite Vq, Vv, Vi.
    + right. split; [now apply Prim2SF_infinity_inv | now rewrite Vi].
  - exact (minutos_de_Ok _ _ _ _ H1 H2).
Qed.

Lemma serie_puntos_witness :
  0 <= 2 /\ length serie_12_3 = Z.to_nat (2 + 1) /\
  exists qi, float_value 3 = Some qi /\
  forall k, 0 <= k <= 2 ->
    exists e v,
      nth_error serie_12_3 (Z.to_nat k) = Some (e, v, k) /\
      ((exists qv, float_value v = Some qv /\ (qv == qi * Q2 k)%Q) \/
       (v = infinity /\ (Q2 1024 <= qi * Q2 k)%Q)) /\
      exists fk, nearest_double (inject_Z k) fk /\ e = (fk * 90 / 60)%float.
Proof.
  apply (serie_puntos log2_ref 12 3 (PyFloat 90) (PyFloat 3));
    vm_compute; reflexivity.
Defined.

(** C4.  On a non-degenerate input the returned [totalMinutes] is a float,
    [(duplicationsNeeded * doublingPeriod) / 60]: a nearest double of that
    quotient for an int period, the IEEE product and quotient
    [float(n) * period / 60.0] for a float one. *)
Theorem minutos_totales libm t i p m n s :
  (0 <? i)%float = true -> (i <? t)%float = true ->
  calcular_tiempo_para_volumen libm t i p = Ok (m, n, s) ->
  exists f, m = PyFloat f /\
    match p with
    | PyInt z => nearest_double (inject_Z (n * z) / 60) f
    | PyFloat g =>
        exists fn, nearest_double (inject_Z n) fn /\ f = (fn * g / 60)%float
    end.
Proof.
  intros Hi Ht H.
  destruct (calcular_Ok _ _ _ _ _ _ _ (no_degenerado _ _ Hi Ht) H)
    as (l & secs & mins & _ & _ & H1 & H2 & -> & _).
  exists mins. split; [reflexivity|]. exact (minutos_de_Ok _ _ _ _ H1 H2).
Qed.

Lemma minutos_totales_witness :
  exists f, PyFloat 3 = PyFloat f /\
    exists fn, nearest_double (inject_Z 2) fn /\ f = (fn * 90 / 60)%float.
Proof.
  apply (minutos_totales log2_ref 12 3 (PyFloat 90) (PyFloat 3) 2 serie_12_3);
    vm_compute; reflexivity.
Defined.

(** C5, amended.  In a returned series the duplication index is strictly
    increasing, and so are the elapsed minutes when the doubling period is
    an int above zero or a float from [2 ^ -1067] to [2 ^ 1014]. *)
Theorem serie_creciente libm t i p m n s :
  calcular_tiempo_para_volumen libm t i p = Ok (m, n, s) ->
  forall j1 j2 e1 v1 k1 e2 v2 k2,
    (j1 < j2)%nat ->
    nth_error s j1 = Some (e1, v1, k1) ->
    nth_error s j2 = Some (e2, v2, k2) ->
    k1 < k2 /\
    (periodo_regular p -> (e1 <? e2)%float = true).
Proof.
  intros H j1 j2 e1 v1 k1 e2 v2 k2 Hj H1 H2.
  destruct ((i <=? 0)%float || (t <=? i)%float) eqn:Hg.
  { unfold calcular_tiempo_para_volumen in H. rewrite Hg in H.
    injection H as <- <- <-. destruct j1; discriminate. }
  destruct (calcular_Ok _ _ _ _ _ _ _ Hg H) as (_ & _ & _ & _ & _ & _ & _ & _ & Hs).
  destruct (serie_Ok _ _ _ _ Hs) as [_ Hpt].
  destruct (punto_de_Ok _ _ _ _ _ _ (Hpt _ _ H1)) as (-> & secs1 & Ha1 & Hb1 & Hc1).
  destruct (punto_de_Ok _ _ _ _ _ _ (Hpt _ _ H2)) as (-> & secs2 & Ha2 & Hb2 & Hc2).
  split; [lia|].
  assert (Hk2 : Z.of_nat j2 <= 1023)
    by (apply (float_mul_int_pow2 i _ v2); [lia | exact Hc2]).
  destruct p as [z|g]; simpl; intros Hp.
  - simpl in Ha1, Ha2.
    injection Ha1 as <-. injection Ha2 as <-. simpl in Hb1, Hb2.
    apply (int_truediv_60_lt (Z.of_nat j1 * z) (Z.of_nat j2 * z)); try assumption.
    + nia.
    + change (2 ^ 52) with 4503599627370496.
      replace (Z.of_nat j1 * z + Z.of_nat j2 * z)
        with ((Z.of_nat j1 + Z.of_nat j2) * z) by ring.
      replace (4503599627370496 * (Z.of_nat j2 * z - Z.of_nat j1 * z))
        with (4503599627370496 * (Z.of_nat j2 - Z.of_nat j1) * z) by ring.
      apply Z.mul_le_mono_nonneg_r; lia.
  - destruct Hp as (qg & Hqg & Hlo & Hhi).
    simpl in Ha1, Ha2. bind_inv Ha1. bind_inv Ha2.
    apply Ok_inj in Ha1, Ha2. subst secs1 secs2. simpl in Hb1, Hb2.
    apply float_div_int_60 in Hb1, Hb2. subst e1 e2.
    apply (minutos_float_lt g qg (Z.of_nat j1) (Z.of_nat j2)); try assumption. lia.
Qed.

Lemma serie_creciente_witness : 1 < 2 /\ (1.5 <? 3)%float = true.
Proof.
  assert (H : calcular_tiempo_para_volumen log2_ref 12 3 (PyFloat 90)
              = Ok (PyFloat 3, 2, serie_12_3)) by (vm_compute; reflexivity).
  destruct (serie_creciente log2_ref 12 3 (PyFloat 90) (PyFloat 3) 2 serie_12_3 H
              1%nat 2%nat 1.5%float 6%float 1 3%float 12%float 2) as [Hk He];
    [lia | reflexivity | reflexivity |].
  split; [exact Hk|]. apply He.
  eexists. split; [vm_compute; reflexivity|]. split; vm_compute; discriminate.
Defined.
